(** * FWinPhotoViewer: a shallow embedding of [app.py]

    The non-visual engine of the photo viewer: EXIF orientation, image
    loading, folder enumeration, the navigation cursor, the favorites store
    and the export of favorites.  Python objects are modelled by explicit
    state passing; calls into PIL, Qt, [json] and the filesystem are
    modelled by their outcome. *)

From Stdlib Require Import ZArith Ascii.
From stdpp Require Import gmap strings list sorting pretty.

Local Open Scope Z_scope.

(** ** Python exceptions *)

Inductive Exn :=
  | IndexError | TypeError | AttributeError | JSONDecodeError | OSError
  | OtherError.

Inductive Result (A : Type) :=
  | Ok (a : A)
  | Raise (e : Exn).
Arguments Ok {A} a.
Arguments Raise {A} e.

(** Sequencing: the first exception raised propagates.  With these
    instances [x ← m; k] reads as two statements in a row. *)
Global Instance Result_ret : MRet Result := fun A a => Ok a.
Global Instance Result_bind : MBind Result := fun A B k m =>
  match m with
  | Ok a => k a
  | Raise e => Raise e
  end.

(** [try: body / except Exception: handler] *)
Definition try_except {A} (body : Result A) (handler : Exn -> A) : A :=
  match body with
  | Ok a => a
  | Raise e => handler e
  end.

Fixpoint mapM {A B} (f : A -> Result B) (l : list A) : Result (list B) :=
  match l with
  | [] => Ok []
  | a :: l' => b ← f a; bs ← mapM f l'; Ok (b :: bs)
  end.

(** [l[i]] on a Python list: negative indices count from the end, anything
    out of range raises [IndexError]. *)
Definition py_index {A} (l : list A) (i : Z) : Result A :=
  let n := Z.of_nat (length l) in
  let j := if i <? 0 then n + i else i in
  if (0 <=? j) && (j <? n)
  then match l !! Z.to_nat j with
       | Some a => Ok a
       | None => Raise IndexError
       end
  else Raise IndexError.

(** ** QTransform, restricted to what the viewer builds

    [QTransform] is a 3x3 matrix acting on row vectors; the viewer only
    scales by [+-1] and rotates by right angles, for which Qt uses the exact
    sine and cosine, so the linear part is a 2x2 integer matrix (the
    translation stays zero). *)
Module QTransform.

Record t := Make { m11 : Z; m12 : Z; m21 : Z; m22 : Z }.

Global Instance t_eq_dec : EqDecision t.
Proof. solve_decision. Defined.

(** [QTransform()] *)
Definition identity : t := Make 1 0 0 1.

(** [transform.scale(sx, sy)]: rows are multiplied, that is the scaling
    is applied to a point before the current matrix. *)
Definition scale (sx sy : Z) (m : t) : t :=
  Make (m11 m * sx) (m12 m * sx) (m21 m * sy) (m22 m * sy).

(** The right angles the viewer rotates by. *)
Inductive Angle := Deg90 | Deg180 | DegMinus90.

Definition degrees (a : Angle) : Z :=
  match a with Deg90 => 90 | Deg180 => 180 | DegMinus90 => -90 end.

(** Qt special-cases 90, 180 and 270 (= -90) degrees. *)
Definition sina (a : Angle) : Z :=
  match a with Deg90 => 1 | Deg180 => 0 | DegMinus90 => -1 end.
Definition cosa (a : Angle) : Z :=
  match a with Deg90 => 0 | Deg180 => -1 | DegMinus90 => 0 end.

(** [transform.rotate(a)]: the rotation matrix is multiplied on the left
    of the current matrix. *)
Definition rotate (a : Angle) (m : t) : t :=
  Make (cosa a * m11 m + sina a * m21 m)
       (cosa a * m12 m + sina a * m22 m)
       (- sina a * m11 m + cosa a * m21 m)
       (- sina a * m12 m + cosa a * m22 m).

Definition isIdentity (m : t) : bool := bool_decide (m = identity).

(** [QTransform.map(x, y)], in screen coordinates (x to the right,
    y downwards). *)
Definition map (m : t) (p : Z * Z) : Z * Z :=
  (m11 m * fst p + m21 m * snd p, m12 m * fst p + m22 m * snd p).

End QTransform.

(** ** pathlib, POSIX flavour

    A path is its root ([""], ["/"] or ["//"]) and its components.  Strings
    are byte strings; comparing them byte by byte is comparing the code
    points of UTF-8 text. *)

Record Path := MkPath { root : string; parts : list string }.

Global Instance Path_eq_dec : EqDecision Path.
Proof. solve_decision. Defined.

Global Instance Path_countable : Countable Path.
Proof.
  refine (inj_countable' (fun p => (root p, parts p))
                         (fun x => MkPath (fst x) (snd x)) _).
  by intros [].
Defined.

Definition slash : ascii := "/"%char.
Definition dot : ascii := "."%char.

(** [s.split("/")]: the pieces between the slashes, at least one. *)
Fixpoint split_slash (s : string) : list string :=
  match s with
  | EmptyString => [EmptyString]
  | String a s' =>
      if Ascii.eqb a slash then EmptyString :: split_slash s'
      else match split_slash s' with
           | c :: cs => String a c :: cs
           | [] => [String a EmptyString]
           end
  end.

Fixpoint leading_slashes (s : string) : nat :=
  match s with
  | String a s' => if Ascii.eqb a slash then S (leading_slashes s') else O
  | EmptyString => O
  end.

Definition is_component (c : string) : bool :=
  negb (String.eqb c "") && negb (String.eqb c ".").

(** [Path(s)]: exactly two leading slashes are a root of their own, empty
    and ["."] components are dropped. *)
Definition Path_of_str (s : string) : Path :=
  MkPath (match leading_slashes s with
          | O => ""
          | 2%nat => "//"
          | _ => "/"
          end)
         (filter (fun c => is_component c = true) (split_slash s)).

Fixpoint join_slash (l : list string) : string :=
  match l with
  | [] => ""
  | [c] => c
  | c :: l' => c +:+ "/" +:+ join_slash l'
  end.

(** [str(p)] *)
Definition path_str (p : Path) : string :=
  match root p, parts p with
  | EmptyString, [] => "."
  | r, l => r +:+ join_slash l
  end.

(** [p.name] *)
Definition name (p : Path) : string := List.last (parts p) "".

(** [p.parent] *)
Definition parent (p : Path) : Path := MkPath (root p) (removelast (parts p)).

(** [p / c] for a file name [c] (one component; the empty name adds
    nothing) *)
Definition joinpath (p : Path) (c : string) : Path :=
  if bool_decide (c = "") then p else MkPath (root p) (parts p ++ [c]).

Fixpoint rfind_go (c : ascii) (s : string) (i : nat) (last : option nat) : option nat :=
  match s with
  | EmptyString => last
  | String a s' => rfind_go c s' (S i) (if Ascii.eqb a c then Some i else last)
  end.
(** [s.rfind(c)] *)
Definition rfind (c : ascii) (s : string) : option nat := rfind_go c s O None.

(** Position of the dot that starts the suffix of a file name:
    [0 < i < len(name) - 1]. *)
Definition suffix_pos (nm : string) : option nat :=
  match rfind dot nm with
  | Some i =>
      if ((0 <? i)%nat && (i <? String.length nm - 1)%nat) then Some i else None
  | None => None
  end.

(** [p.suffix] and [p.stem], on the name *)
Definition suffix_of (nm : string) : string :=
  match suffix_pos nm with
  | Some i => String.substring i (String.length nm - i) nm
  | None => ""
  end.
Definition stem_of (nm : string) : string :=
  match suffix_pos nm with
  | Some i => String.substring 0 i nm
  | None => nm
  end.
Definition suffix (p : Path) : string := suffix_of (name p).
Definition stem (p : Path) : string := stem_of (name p).

(** [s.lower()], on the letters A-Z; no other character lowers to a letter
    of a supported extension. *)
Definition lower_ascii (a : ascii) : ascii :=
  let n := N_of_ascii a in
  if ((65 <=? n) && (n <=? 90))%N then ascii_of_N (n + 32) else a.
Fixpoint lower (s : string) : string :=
  match s with
  | EmptyString => EmptyString
  | String a s' => String (lower_ascii a) (lower s')
  end.

(** Comparison of paths: component by component, each by code points,
    the root counting as the first component.  For two paths of one root,
    as all the paths below a folder are, this is the order of [p.parts]
    that [Path.__lt__] uses. *)
Fixpoint parts_leb (l1 l2 : list string) : bool :=
  match l1, l2 with
  | [], _ => true
  | _ :: _, [] => false
  | a :: l1', b :: l2' =>
      match String.compare a b with
      | Lt => true
      | Gt => false
      | Eq => parts_leb l1' l2'
      end
  end.

(** [p <= q] *)
Definition path_leb (p q : Path) : bool :=
  parts_leb (root p :: parts p) (root q :: parts q).
Definition path_le (p q : Path) : Prop := path_leb p q = true.

Global Instance path_le_dec : RelDecision path_le.
Proof. intros p q. unfold path_le. apply _. Defined.

(** [sorted(paths)] *)
Definition sorted (l : list Path) : list Path := merge_sort path_le l.

(** Order of the path strings, [str(p) <= str(q)]. *)
Definition str_le (s1 s2 : string) : Prop := String.le s1 s2.

(** ** JSON values, as [json.loads] returns them *)

#[warnings="-register-all"]
Inductive json :=
  | JNull
  | JBool (b : bool)
  | JNum (n : Z)
  | JStr (s : string)
  | JList (l : list json)
  | JDict (d : list (string * json)).

(** What [FAV_FILE.read_text()] followed by [json.loads] meets: a file that
    cannot be read or decoded, text that is not JSON, or the text of a JSON
    value.  [json.dumps] writes text that [json.loads] reads back as the
    same value. *)
Inductive FileContent :=
  | Unreadable
  | NotJson
  | JsonText (j : json).

Definition read_json (c : FileContent) : Result json :=
  match c with
  | Unreadable => Raise OSError
  | NotJson => Raise JSONDecodeError
  | JsonText j => Ok j
  end.

(** A dict keeps one value per key, the last one given. *)
Fixpoint dict_lookup (key : string) (d : list (string * json)) : option json :=
  match d with
  | [] => None
  | (k, v) :: d' =>
      match dict_lookup key d' with
      | Some v' => Some v'
      | None => if String.eqb k key then Some v else None
      end
  end.

(** [data.get(key, default)]: only a dict has [get]. *)
Definition py_get (data : json) (key : string) (default : json) : Result json :=
  match data with
  | JDict d => Ok (from_option id default (dict_lookup key d))
  | _ => Raise AttributeError
  end.

Fixpoint chars (s : string) : list string :=
  match s with
  | EmptyString => []
  | String a s' => String a EmptyString :: chars s'
  end.

(** [for p in favs]: a list gives its items, a string its characters, a
    dict its keys; nothing else is iterable. *)
Definition py_iter (v : json) : Result (list json) :=
  match v with
  | JList l => Ok l
  | JStr s => Ok (JStr <$> chars s)
  | JDict d => Ok ((fun kv => JStr (fst kv)) <$> d)
  | _ => Raise TypeError
  end.

(** [Path(p)] on a value read from JSON: only a string is accepted. *)
Definition Path_ctor (v : json) : Result Path :=
  match v with
  | JStr s => Ok (Path_of_str s)
  | _ => Raise TypeError
  end.

(** ** EXIF *)

(** A tag's value: an integer, or anything that equals no integer. *)
Inductive ExifValue :=
  | ExifInt (n : Z)
  | ExifOther.

Definition ExifDict := list (Z * ExifValue).

(** [ExifTags.TAGS.get(tag) == "Orientation"]: tag 0x0112. *)
Definition is_orientation_tag (tag : Z) : bool := tag =? 274.

(** [val == n] *)
Definition exif_eq (v : ExifValue) (n : Z) : bool :=
  match v with
  | ExifInt m => m =? n
  | ExifOther => false
  end.

(** The transform built from the orientation value. *)
Definition exif_transform (orientation : ExifValue) : QTransform.t :=
  let transform := QTransform.identity in
  if exif_eq orientation 2 then QTransform.scale (-1) 1 transform
  else if exif_eq orientation 3 then QTransform.rotate QTransform.Deg180 transform
  else if exif_eq orientation 4 then QTransform.scale 1 (-1) transform
  else if exif_eq orientation 5 then
    QTransform.rotate QTransform.Deg90 (QTransform.scale (-1) 1 transform)
  else if exif_eq orientation 6 then QTransform.rotate QTransform.Deg90 transform
  else if exif_eq orientation 7 then
    QTransform.rotate QTransform.DegMinus90 (QTransform.scale (-1) 1 transform)
  else if exif_eq orientation 8 then QTransform.rotate QTransform.DegMinus90 transform
  else transform.

(** ** The filesystem under a folder *)

Inductive LinkTarget := ToFile | ToDir | Dangling.

#[warnings="-register-all"]
Inductive Node :=
  | File (nm : string)
  | Dir (nm : string) (children : list Node)
  | Link (nm : string) (target : LinkTarget).

Global Instance LinkTarget_eq_dec : EqDecision LinkTarget.
Proof. solve_decision. Defined.

(** One entry that [rglob] yields, with what [is_file()] answers for it
    (symbolic links are followed). *)
Definition Entry : Type := Path * bool.

(** [base.rglob("*")] below one node: every entry, directories included;
    symbolic links to directories are yielded but not entered. *)
Fixpoint rglob_node (base : Path) (n : Node) : list Entry :=
  match n with
  | File nm => [(joinpath base nm, true)]
  | Link nm t => [(joinpath base nm, bool_decide (t = ToFile))]
  | Dir nm children =>
      (joinpath base nm, false)
        :: flat_map (rglob_node (joinpath base nm)) children
  end.

Definition rglob (folder : Path) (contents : list Node) : list Entry :=
  flat_map (rglob_node folder) contents.

Definition node_name (n : Node) : string :=
  match n with File nm | Dir nm _ | Link nm _ => nm end.

(** A regular file, or a link to one. *)
Definition node_is_file (n : Node) : bool :=
  match n with
  | File _ => true
  | Link _ t => bool_decide (t = ToFile)
  | Dir _ _ => false
  end.

(** [under base nodes p b]: [p] is the path of something below the folder
    [base] holding [nodes], at any depth through directories proper, and
    [b] says whether it is a file. *)
Inductive under : Path -> list Node -> Path -> bool -> Prop :=
  | under_here base nodes n :
      n ∈ nodes ->
      under base nodes (joinpath base (node_name n)) (node_is_file n)
  | under_deeper base nodes nm children p b :
      Dir nm children ∈ nodes ->
      under (joinpath base nm) children p b ->
      under base nodes p b.

Definition IMAGE_EXTS : list string :=
  [".jpg"; ".jpeg"; ".png"; ".webp"; ".bmp"; ".gif"; ".heic"; ".heif"].

Definition is_image (e : Entry) : bool :=
  bool_decide (lower (suffix (fst e)) ∈ IMAGE_EXTS) && snd e.

(** [sorted([p for p in entries if p.suffix.lower() in IMAGE_EXTS and
    p.is_file()])] *)
Definition list_images (entries : list Entry) : list Path :=
  sorted (fst <$> filter (fun e => is_image e = true) entries).

(** ** What the program does to the outside *)

Inductive Event :=
  | NoImagesBox            (* information: no supported images found *)
  | NoFolderBox            (* information: please select a folder first *)
  | NoFavoritesBox         (* information: no favorite photos in the folder *)
  | SaveErrorBox           (* warning: could not save favorites.json *)
  | ExportCompleteBox (copied : Z) (target : Path)
  | CopyFailedPrint (src dst : Path)
  | WroteFavorites (payload : json)
  | Copied (src dst : Path).

(** The world outside the window: the paths that exist, the favorites file
    (absent, or its content), whether it can be written, and what has been
    done so far (latest first). *)
Record World := MkWorld {
  existing : gset Path;
  fav_file : option FileContent;
  fav_writable : bool;
  events : list Event
}.

Definition emit (e : Event) (env : World) : World :=
  MkWorld (existing env) (fav_file env) (fav_writable env) (e :: events env).

(** ** The viewer *)

(** What the viewer takes from Qt, PIL and the filesystem. *)
Class Libs := {
  (** Qt's images *)
  QImage : Type;
  QPixmap : Type;
  (** [qimg.transformed(transform)] *)
  transformed : QTransform.t -> QImage -> QImage;
  (** [QPixmap.fromImage(qimg)] *)
  fromImage : QImage -> QPixmap;
  (** [Image.open(path)] then [pil_img._getexif()]: an exception, [None],
      or the dictionary of tags *)
  getexif : Path -> Result (option ExifDict);
  (** [Image.open(path)], [im.load()] and [pil_to_qimage(im)] *)
  heif_decode : Path -> Result QImage;
  (** [QImageReader(str(path)).read()]: [None] is the null image *)
  reader_read : Path -> option QImage;
  (** [p.resolve()] *)
  resolve : Path -> Path;
  (** whether [shutil.copy2(src, dst)] goes through *)
  copy2_ok : Path -> Path -> bool
}.

Section Viewer.

Context {libs : Libs}.

(** The [for tag, val in exif.items()] loop: the first orientation tag
    decides, then [break]. *)
Fixpoint orientation_loop (items : ExifDict) (qimg : QImage) : QImage :=
  match items with
  | [] => qimg
  | (tag, val) :: rest =>
      if is_orientation_tag tag then
        let transform := exif_transform val in
        if negb (QTransform.isIdentity transform)
        then transformed transform qimg
        else qimg
      else orientation_loop rest qimg
  end.

Definition _apply_exif_orientation (path : Path) (qimg : QImage) : QImage :=
  try_except
    (exif ← getexif path;
     Ok (orientation_loop (default [] exif) qimg))
    (fun _ => qimg).

(** [load_image]: [None] is the failure result (the line printed when the
    HEIC decoder fails is left out). *)
Definition load_image (path : Path) : option QPixmap :=
  let ext := lower (suffix path) in
  if bool_decide (ext ∈ [".heic"; ".heif"]) then
    try_except
      (qimg ← heif_decode path;
       let qimg := _apply_exif_orientation path qimg in
       Ok (Some (fromImage qimg)))
      (fun _ => None)
  else
    match reader_read path with
    | None => None
    | Some img => Some (fromImage (_apply_exif_orientation path img))
    end.

(** What the status bar shows. *)
Inductive Status :=
  | NoStatus
  | FailedToLoad (nm : string)
  | Position (i n : Z) (path : Path).

(** [MainWindow]: the navigation state ([folder], [files], [index]), the
    favorites, and what is on screen. *)
Record MainWindow := MkWindow {
  folder : option Path;
  files : list Path;
  index : Z;
  favorites : gset Path;
  pixmap : option QPixmap;          (* viewer._base_pixmap *)
  title : option (Path * Z * Z);    (* path, index + 1, len(files) *)
  status : Status;
  fav_btn : bool                    (* true: filled heart *)
}.

Definition set_folder_files (f : Path) (l : list Path) (w : MainWindow) :=
  MkWindow (Some f) l (index w) (favorites w) (pixmap w) (title w)
           (status w) (fav_btn w).
Definition set_index (i : Z) (w : MainWindow) :=
  MkWindow (folder w) (files w) i (favorites w) (pixmap w) (title w)
           (status w) (fav_btn w).
Definition set_favorites (s : gset Path) (w : MainWindow) :=
  MkWindow (folder w) (files w) (index w) s (pixmap w) (title w)
           (status w) (fav_btn w).
Definition set_status (s : Status) (w : MainWindow) :=
  MkWindow (folder w) (files w) (index w) (favorites w) (pixmap w) (title w)
           s (fav_btn w).
Definition set_fav_btn (b : bool) (w : MainWindow) :=
  MkWindow (folder w) (files w) (index w) (favorites w) (pixmap w) (title w)
           (status w) b.
Definition set_shown (pix : QPixmap) (t : Path * Z * Z) (s : Status)
    (w : MainWindow) :=
  MkWindow (folder w) (files w) (index w) (favorites w) (Some pix) (Some t)
           s (fav_btn w).

(** [len(self.files)] *)
Definition len (w : MainWindow) : Z := Z.of_nat (length (files w)).

(** [not self.files or self.index < 0] *)
Definition no_selection (w : MainWindow) : bool :=
  bool_decide (files w = []) || (index w <? 0).

Definition _update_fav_icon (w : MainWindow) : Result MainWindow :=
  if no_selection w then Ok (set_fav_btn false w)
  else
    path ← py_index (files w) (index w);
    Ok (set_fav_btn (bool_decide (path ∈ favorites w)) w).

Definition _show_current (w : MainWindow) : Result MainWindow :=
  if (index w <? 0) || (len w <=? index w) then Ok w
  else
    path ← py_index (files w) (index w);
    match load_image path with
    | None => Ok (set_status (FailedToLoad (name path)) w)
    | Some pix =>
        _update_fav_icon
          (set_shown pix (path, index w + 1, len w)
                     (Position (index w + 1) (len w) path) w)
    end.

(** [choose_folder]: [picked] is what the dialog returns (empty when it
    is cancelled), [contents] what is in the folder picked. *)
Definition choose_folder (picked : string) (contents : list Node)
    (w : MainWindow) (env : World) : Result (MainWindow * World) :=
  if bool_decide (picked = "") then Ok (w, env)
  else
    let folder := Path_of_str picked in
    let w := set_folder_files folder (list_images (rglob folder contents)) w in
    if bool_decide (files w = []) then Ok (w, emit NoImagesBox env)
    else
      w ← _show_current (set_index 0 w);
      Ok (w, env).

Definition next_image (w : MainWindow) : Result MainWindow :=
  if bool_decide (files w = []) then Ok w
  else _show_current (set_index ((index w + 1) `mod` len w) w).

Definition prev_image (w : MainWindow) : Result MainWindow :=
  if bool_decide (files w = []) then Ok w
  else _show_current (set_index ((index w - 1) `mod` len w) w).

(** *** Favorites *)

Definition _fav_json_payload (w : MainWindow) : json :=
  JDict [("favorites",
          JList ((fun p => JStr (path_str (resolve p)))
                   <$> sorted (elements (favorites w))))].

(** [_save_favorites]: the file is written whole; when building the
    payload or writing raises, a warning is shown instead. *)
Definition _save_favorites (w : MainWindow) (env : World) : World :=
  if fav_writable env then
    let payload := _fav_json_payload w in
    MkWorld (existing env) (Some (JsonText payload)) (fav_writable env)
            (WroteFavorites payload :: events env)
  else emit SaveErrorBox env.

Definition _load_favorites (w : MainWindow) (env : World) : MainWindow :=
  match fav_file env with
  | None => w
  | Some content =>
      set_favorites
        (try_except
           (data ← read_json content;
            favs ← py_get data "favorites" (JList []);
            items ← py_iter favs;
            paths ← mapM Path_ctor items;
            Ok (list_to_set paths))
           (fun _ => ∅))
        w
  end.

Definition toggle_favorite (w : MainWindow) (env : World)
    : Result (MainWindow * World) :=
  if no_selection w then Ok (w, env)
  else
    path ← py_index (files w) (index w);
    let w :=
      if bool_decide (path ∈ favorites w)
      then set_favorites (favorites w ∖ {[path]}) w
      else set_favorites (favorites w ∪ {[path]}) w in
    let env := _save_favorites w env in
    w ← _update_fav_icon w;
    w ← _show_current w;
    Ok (w, env).

(** [MainWindow.__init__] *)
Definition init (env : World) : MainWindow :=
  _load_favorites (MkWindow None [] (-1) ∅ None None NoStatus false) env.

(** [isFavorite(path)]: [path in self.favorites] *)
Definition isFavorite (w : MainWindow) (path : Path) : bool :=
  bool_decide (path ∈ favorites w).

(** *** Export *)

(** [f"{stem}_{i}{suf}"] *)
Definition alt_name (stem suf : string) (i : N) : string :=
  stem +:+ "_" +:+ pretty i +:+ suf.

(** The [while True] loop that probes [_1], [_2], ...: [fuel] bounds the
    number of probes, [None] means the bound was reached. *)
Fixpoint probe (fuel : nat) (ex : gset Path) (target : Path)
    (stem suf : string) (i : N) : option Path :=
  match fuel with
  | O => None
  | S fuel' =>
      let alt := joinpath target (alt_name stem suf i) in
      if bool_decide (alt ∉ ex) then Some alt
      else probe fuel' ex target stem suf (i + 1)%N
  end.

(** The destination for [src]: [target / src.name], or the first unused
    numbered name.  Among [size ex + 1] numbered names one is unused. *)
Definition choose_dst (ex : gset Path) (target src : Path) : option Path :=
  let dst := joinpath target (name src) in
  if bool_decide (dst ∈ ex)
  then probe (S (size ex)) ex target (stem dst) (suffix dst) 1%N
  else Some dst.

Definition add_copy (src dst : Path) (env : World) : World :=
  MkWorld (existing env ∪ {[dst]}) (fav_file env) (fav_writable env)
          (Copied src dst :: events env).

(** The [for src in favs_in_folder] loop. *)
Fixpoint export_loop (target : Path) (srcs : list Path) (copied : Z)
    (env : World) : option (Z * World) :=
  match srcs with
  | [] => Some (copied, env)
  | src :: rest =>
      if bool_decide (src ∉ existing env)
      then export_loop target rest copied env
      else
        dst ← choose_dst (existing env) target src;
        if copy2_ok src dst
        then export_loop target rest (copied + 1) (add_copy src dst env)
        else export_loop target rest copied (emit (CopyFailedPrint src dst) env)
  end.

(** [p.parent.resolve() == self.folder.resolve()] *)
Definition in_folder (f p : Path) : bool :=
  bool_decide (resolve (parent p) = resolve f).

(** [export_favorites], the favorites being iterated in the order
    [favs]; [picked] is what the dialog returns when it is shown. *)
Definition export_from (favs : list Path) (picked : string)
    (w : MainWindow) (env : World) : option World :=
  match folder w with
  | None => Some (emit NoFolderBox env)
  | Some f =>
      let favs_in_folder := filter (fun p => in_folder f p = true) favs in
      if bool_decide (favs_in_folder = []) then Some (emit NoFavoritesBox env)
      else if bool_decide (picked = "") then Some env
      else
        let target := Path_of_str picked in
        r ← export_loop target favs_in_folder 0 env;
        Some (emit (ExportCompleteBox (fst r) target) (snd r))
  end.

Definition export_favorites (picked : string) (w : MainWindow) (env : World)
    : option World :=
  export_from (elements (favorites w)) picked w env.

(** *** The documented behaviour, in the words of the specification *)

(** The orientation field of the decoded metadata, if any. *)
Fixpoint orientation_field (items : ExifDict) : option ExifValue :=
  match items with
  | [] => None
  | (tag, val) :: rest =>
      if is_orientation_tag tag then Some val else orientation_field rest
  end.

(** OrientationTag: an integer 1-8; a tag that is absent, unreadable or
    corrupt counts as 1. *)
Definition OrientationTag (path : Path) : Z :=
  match getexif path with
  | Ok (Some items) =>
      match orientation_field items with
      | Some (ExifInt n) => if (1 <=? n) && (n <=? 8) then n else 1
      | _ => 1
      end
  | _ => 1
  end.

(** The 8-way mapping, as what happens to a point of the screen (x to
    the right, y downwards). *)
Definition documented_mapping (tag : Z) (p : Z * Z) : Z * Z :=
  let '(x, y) := p in
  match tag with
  | 2 => (- x, y)       (* mirror-horizontal *)
  | 3 => (- x, - y)     (* rotate-180 *)
  | 4 => (x, - y)       (* mirror-vertical *)
  | 5 => (y, x)         (* transpose *)
  | 6 => (- y, x)       (* rotate-90-CW *)
  | 7 => (- y, - x)     (* transverse *)
  | 8 => (y, - x)       (* rotate-90-CCW *)
  | _ => (x, y)         (* 1: identity *)
  end.

(** *** Auxiliary notions used in the statements *)

Fixpoint slash_free (s : string) : bool :=
  match s with
  | EmptyString => true
  | String a s' => negb (Ascii.eqb a slash) && slash_free s'
  end.

(** A file or directory name: not empty, not ["."], without a slash. *)
Definition is_name (c : string) : bool := is_component c && slash_free c.

(** The paths that pathlib builds: one of the three roots, and names. *)
Definition wf_path (p : Path) : bool :=
  bool_decide (root p ∈ [""; "/"; "//"]) && forallb is_name (parts p).

(** NavigationState: currentFolder, fileList, index. *)
Definition nav (w : MainWindow) : option Path * list Path * Z :=
  (folder w, files w, index w).

(** The invariant of NavigationState: the index is valid for the file
    list, or exactly -1. *)
Definition index_valid (w : MainWindow) : Prop :=
  -1 <= index w <= len w - 1.

(** [current()]: the path under the cursor, if there is a selection. *)
Definition current (w : MainWindow) : option Path :=
  if no_selection w then None
  else match py_index (files w) (index w) with
       | Ok p => Some p
       | Raise _ => None
       end.

(** Decoding [path] fails: the dedicated decoder raises for a HEIC or
    HEIF file, the generic reader returns the null image for any
    other. *)
Definition decode_fails (path : Path) : Prop :=
  if bool_decide (lower (suffix path) ∈ [".heic"; ".heif"])
  then exists e, heif_decode path = Raise e
  else reader_read path = None.

(** Membership flipped for one path. *)
Definition toggled (p : Path) (s : gset Path) : gset Path :=
  if bool_decide (p ∈ s) then s ∖ {[p]} else s ∪ {[p]}.

Definition is_str (v : json) : bool :=
  match v with JStr _ => true | _ => false end.

(** The values of ["favorites"] on which building the set raises: what
    is not iterable, and a list with an item that is not a string. *)
Definition not_paths (v : json) : bool :=
  match v with
  | JNull | JBool _ | JNum _ => true
  | JList l => negb (forallb is_str l)
  | JStr _ | JDict _ => false
  end.

(** The favorites file is missing, cannot be read, is not JSON, is not
    an object, has no ["favorites"] key, or has one whose value makes
    the loading raise. *)
Definition degraded (c : option FileContent) : bool :=
  match c with
  | None | Some Unreadable | Some NotJson => true
  | Some (JsonText (JDict d)) =>
      match dict_lookup "favorites" d with
      | None => true
      | Some v => not_paths v
      end
  | Some (JsonText _) => true
  end.

(** The list held by a favorites file [{"favorites": [strings]}]. *)
Definition favorites_payload (strs : list string) : FileContent :=
  JsonText (JDict [("favorites", JList (JStr <$> strs))]).

(** The destinations of the copies made, among some events. *)
Fixpoint copied_dsts (evs : list Event) : list Path :=
  match evs with
  | [] => []
  | Copied _ dst :: evs' => dst :: copied_dsts evs'
  | _ :: evs' => copied_dsts evs'
  end.

(** The source that an event of the export loop is about. *)
Definition event_src (e : Event) : option Path :=
  match e with
  | Copied src _ | CopyFailedPrint src _ => Some src
  | _ => None
  end.

(** The [i]-th numbered candidate for a destination [dst] in [target]. *)
Definition candidate (target dst : Path) (i : N) : Path :=
  joinpath target (alt_name (stem dst) (suffix dst) i).

End Viewer.

(** ** Keys, and the states a window can be in *)

(** The keys that [keyPressEvent] looks at, and any other. *)
Inductive Key :=
  | Key_Right | Key_Down | Key_PageDown
  | Key_Left | Key_Up | Key_PageUp
  | Key_F | Key_Space
  | Key_Other.

Global Instance Key_eq_dec : EqDecision Key.
Proof. solve_decision. Defined.

Section Handlers.

Context {libs : Libs}.

(** [keyPressEvent]; a key of no interest goes to [QMainWindow]. *)
Definition keyPressEvent (key : Key) (w : MainWindow) (env : World)
    : Result (MainWindow * World) :=
  if bool_decide (key ∈ [Key_Right; Key_Down; Key_PageDown]) then
    w ← next_image w; Ok (w, env)
  else if bool_decide (key ∈ [Key_Left; Key_Up; Key_PageUp]) then
    w ← prev_image w; Ok (w, env)
  else if bool_decide (key ∈ [Key_F; Key_Space]) then
    toggle_favorite w env
  else Ok (w, env).

(** [next_image] called [k] times in a row. *)
Fixpoint press_next (k : nat) (w : MainWindow) : Result MainWindow :=
  match k with
  | O => Ok w
  | S k' => w ← next_image w; press_next k' w
  end.

(** [prev_image] called [k] times in a row. *)
Fixpoint press_prev (k : nat) (w : MainWindow) : Result MainWindow :=
  match k with
  | O => Ok w
  | S k' => w ← prev_image w; press_prev k' w
  end.

(** The windows that can come about: a window as [__init__] leaves it,
    then any of the handlers that change the window, each in whatever the
    world is at that moment ([export_favorites] changes no window). *)
Inductive reachable : MainWindow -> Prop :=
  | reach_init env :
      reachable (init env)
  | reach_choose_folder w env picked contents w' env' :
      reachable w ->
      choose_folder picked contents w env = Ok (w', env') ->
      reachable w'
  | reach_next_image w w' :
      reachable w -> next_image w = Ok w' -> reachable w'
  | reach_prev_image w w' :
      reachable w -> prev_image w = Ok w' -> reachable w'
  | reach_toggle_favorite w env w' env' :
      reachable w -> toggle_favorite w env = Ok (w', env') -> reachable w'
  | reach_keyPressEvent w env key w' env' :
      reachable w -> keyPressEvent key w env = Ok (w', env') -> reachable w'.

(** The file list is empty, or the index points into it. *)
Definition selection_ok (w : MainWindow) : Prop :=
  files w = [] \/ 0 <= index w < len w.

End Handlers.

(** ** The image view *)

Section ImageView.

Context {libs : Libs}.

(** Qt's floating-point numbers, here only handed on. *)
Variable qreal : Type.

(** The factor of a [scale(factor, factor)]. *)
Inductive Factor :=
  | ZoomIn                         (* 1.25 *)
  | ZoomOut                        (* 1 / 1.25 *)
  | PinchFactor (f : qreal).       (* gesture.scaleFactor() *)

(** What the view asks of [QGraphicsView] that bears on the zoom: the
    resize it passes on, and the three ways it sets the transform. *)
Inductive ViewCall :=
  | SuperResize
  | ResetTransform
  | FitInView
  | Scale (f : Factor).

(** [ImageView]: its fields, and the calls made so far (latest first).
    The scene is left out but for the item that holds the pixmap. *)
Record ImageView := MkView {
  pixmap_item : option QPixmap;
  _base_pixmap : option QPixmap;
  _fit_mode : bool;
  calls : list ViewCall
}.

(** [ImageView.__init__] *)
Definition new_view : ImageView := MkView None None true [].

Definition call (c : ViewCall) (v : ImageView) : ImageView :=
  MkView (pixmap_item v) (_base_pixmap v) (_fit_mode v) (c :: calls v).

Definition set_fit_mode (b : bool) (v : ImageView) : ImageView :=
  MkView (pixmap_item v) (_base_pixmap v) b (calls v).

Definition set_pixmap (pixmap : option QPixmap) (v : ImageView) : ImageView :=
  let v := MkView None pixmap (_fit_mode v) (calls v) in
  match pixmap with
  | None => v
  | Some pix =>
      let v := MkView (Some pix) (_base_pixmap v) (_fit_mode v) (calls v) in
      let v := call ResetTransform v in
      if _fit_mode v then call FitInView v else v
  end.

(** [wheelEvent]; [dy] is [event.angleDelta().y()]. *)
Definition wheelEvent (dy : Z) (v : ImageView) : ImageView :=
  match _base_pixmap v with
  | None => v
  | Some _ =>
      let factor := if 0 <? dy then ZoomIn else ZoomOut in
      call (Scale factor) (set_fit_mode false v)
  end.

Definition resizeEvent (v : ImageView) : ImageView :=
  let v := call SuperResize v in
  if _fit_mode v && bool_decide (is_Some (_base_pixmap v))
  then call FitInView v
  else v.

(** [mouseDoubleClickEvent]; what [QGraphicsView] does with the event
    afterwards is left out. *)
Definition mouseDoubleClickEvent (v : ImageView) : ImageView :=
  match _base_pixmap v with
  | None => v
  | Some _ =>
      if _fit_mode v
      then call ResetTransform (set_fit_mode false v)
      else call FitInView (call ResetTransform (set_fit_mode true v))
  end.

(** A pinch gesture: [changeFlags()] and [scaleFactor()]. *)
Record Pinch := MkPinch {
  changeFlags : Z;
  scaleFactor : qreal
}.

(** An event: [e.type()], and what [e.gesture(PinchGesture)] gives. *)
Record QEvent := MkEvent {
  etype : Z;
  gesture : option Pinch
}.

(** What [event] returns: [True], or what [QGraphicsView.event] says. *)
Inductive Handled := ReturnedTrue | PassedOn.

Definition event (e : QEvent) (v : ImageView) : ImageView * Handled :=
  if etype e =? 198 then
    match gesture e, _base_pixmap v with
    | Some g, Some _ =>
        let change_flags := changeFlags g in
        let v :=
          if negb (Z.land change_flags 1 =? 0)
          then call (Scale (PinchFactor (scaleFactor g))) (set_fit_mode false v)
          else v in
        (v, ReturnedTrue)
    | _, _ => (v, PassedOn)
    end
  else (v, PassedOn).

(** What can happen to a view. *)
Inductive ViewEvent :=
  | SetPixmap (pixmap : option QPixmap)
  | Wheel (dy : Z)
  | Resize
  | DoubleClick
  | QtEvent (e : QEvent).

Definition view_step (v : ImageView) (ev : ViewEvent) : ImageView :=
  match ev with
  | SetPixmap pixmap => set_pixmap pixmap v
  | Wheel dy => wheelEvent dy v
  | Resize => resizeEvent v
  | DoubleClick => mouseDoubleClickEvent v
  | QtEvent e => fst (event e v)
  end.

(** The view after a sequence of events, the first one first. *)
Definition view_run (evs : list ViewEvent) (v : ImageView) : ImageView :=
  foldl view_step v evs.

Definition is_double_click (ev : ViewEvent) : bool :=
  match ev with DoubleClick => true | _ => false end.

End ImageView.

Arguments MkView {libs qreal} _ _ _ _.
Arguments pixmap_item {libs qreal} _.
Arguments _base_pixmap {libs qreal} _.
Arguments _fit_mode {libs qreal} _.
Arguments calls {libs qreal} _.
Arguments new_view {libs qreal}.
Arguments set_pixmap {libs qreal} _ _.
Arguments wheelEvent {libs qreal} _ _.
Arguments resizeEvent {libs qreal} _.
Arguments mouseDoubleClickEvent {libs qreal} _.
Arguments event {libs qreal} _ _.
Arguments view_step {libs qreal} _ _.
Arguments view_run {libs qreal} _ _.
Arguments is_double_click {libs qreal} _.
Arguments SuperResize {qreal}.
Arguments ResetTransform {qreal}.
Arguments FitInView {qreal}.
Arguments Scale {qreal} _.
Arguments ZoomIn {qreal}.
Arguments ZoomOut {qreal}.
Arguments PinchFactor {qreal} _.
Arguments SetPixmap {libs qreal} _.
Arguments Wheel {libs qreal} _.
Arguments Resize {libs qreal}.
Arguments DoubleClick {libs qreal}.
Arguments QtEvent {libs qreal} _.
Arguments MkPinch {qreal} _ _.
Arguments MkEvent {qreal} _ _.

(** ** A plain setting for the examples

    Every file decodes, there is no metadata, no symbolic link, and every
    copy goes through. *)
Module Demo.

Definition plain : Libs := {|
  QImage := unit;
  QPixmap := unit;
  transformed := fun _ qimg => qimg;
  fromImage := fun qimg => qimg;
  getexif := fun _ => Ok None;
  heif_decode := fun _ => Ok tt;
  reader_read := fun _ => Some tt;
  resolve := fun p => p;
  copy2_ok := fun _ _ => true
|}.

(** Nothing on disk yet, the favorites file writable. *)
Definition empty_world : World := MkWorld ∅ None true [].

(** A world whose favorites file holds [content]. *)
Definition world_with (content : FileContent) : World :=
  MkWorld ∅ (Some content) true [].

(** A world in which the paths [ps] exist. *)
Definition world_of (ps : list Path) : World :=
  MkWorld (list_to_set ps) None true [].

(** A window on the folder [/f] holding [a.jpg], nothing favorited. *)
Definition one_photo : MainWindow (libs := plain) :=
  MkWindow (Some (Path_of_str "/f")) [Path_of_str "/f/a.jpg"] 0 ∅
           None None NoStatus false.

(** Open a folder with two photos, go to the second one, then open a
    folder without any image. *)
Definition stale_index_session : Result (MainWindow (libs := plain)) :=
  r1 ← choose_folder "/pics" [File "a.jpg"; File "b.jpg"]
         (init empty_world) empty_world;
  w2 ← next_image (fst r1);
  r3 ← choose_folder "/empty" [File "notes.txt"] w2 (snd r1);
  Ok (fst r3).

(** Start with [/f/a.jpg] among the saved favorites, open [/f] and toggle
    the photo shown. *)
Definition unfavorite_session
    : Result (MainWindow (libs := plain) * World) :=
  let env := world_with (favorites_payload ["/f/a.jpg"]) in
  r1 ← choose_folder "/f" [File "a.jpg"] (init env) env;
  toggle_favorite (fst r1) (snd r1).


End Demo.

(** ** More settings for the examples *)
Module Examples.

(** A window on [/pics] holding two photos, the cursor on the second. *)
Definition two_photos : MainWindow (libs := Demo.plain) :=
  MkWindow (Some (Path_of_str "/pics"))
           [Path_of_str "/pics/a.jpg"; Path_of_str "/pics/b.jpg"] 1 ∅
           None None NoStatus false.

(** A window on [/f] showing [a.jpg], which is a favorite. *)
Definition one_favorite : MainWindow (libs := Demo.plain) :=
  MkWindow (Some (Path_of_str "/f")) [Path_of_str "/f/a.jpg"] 0
           {[Path_of_str "/f/a.jpg"]} None None NoStatus false.


(** The window after [/pics], holding two photos and a text file, has
    been opened in a fresh window. *)
Definition opened : MainWindow (libs := Demo.plain) :=
  match choose_folder "/pics" [File "b.jpg"; File "a.jpg"; File "notes.txt"]
          (init Demo.empty_world) Demo.empty_world with
  | Ok r => fst r
  | Raise _ => init Demo.empty_world
  end.

(** A view that shows a picture, zoomed by the wheel. *)
Definition zoomed_view : ImageView (libs := Demo.plain) Z :=
  wheelEvent 120 (set_pixmap (libs := Demo.plain) (Some tt) new_view).

End Examples.

(** * Properties *)

Section Properties.

Context {libs : Libs}.

(** ** Orientation *)

Ltac qt_points :=
  unfold QTransform.map, QTransform.rotate, QTransform.scale,
    QTransform.identity, QTransform.sina, QTransform.cosa;
  simpl; f_equal; lia.

Lemma exif_transform_documented (n : Z) (p : Z * Z) :
  1 <= n <= 8 ->
  QTransform.map (exif_transform (ExifInt n)) p = documented_mapping n p.
Proof.
  intros Hn. destruct p as [x y].
  assert (n = 1 \/ n = 2 \/ n = 3 \/ n = 4 \/ n = 5 \/ n = 6 \/ n = 7 \/ n = 8)
    as Hcases by lia.
  repeat (destruct Hcases as [-> | Hcases]); try subst n; qt_points.
Qed.

Lemma exif_transform_identity (v : ExifValue) :
  QTransform.isIdentity (exif_transform v) = true <->
  (forall n, v = ExifInt n -> ~ 2 <= n <= 8).
Proof.
  destruct v as [n|]; [|split; [intros _ n [=] | reflexivity]].
  split.
  - intros Hid m [= <-] Hm.
    assert (n = 2 \/ n = 3 \/ n = 4 \/ n = 5 \/ n = 6 \/ n = 7 \/ n = 8)
      as Hcases by lia.
    repeat (destruct Hcases as [-> | Hcases]); try subst n; discriminate Hid.
  - intros Hn. specialize (Hn n eq_refl).
    unfold exif_transform, exif_eq.
    repeat match goal with
           | |- context [n =? ?k] => destruct (Z.eqb_spec n k); [lia|]
           end.
    reflexivity.
Qed.

Lemma orientation_loop_field (items : ExifDict) (qimg : QImage) :
  orientation_loop items qimg =
  match orientation_field items with
  | Some val =>
      if QTransform.isIdentity (exif_transform val) then qimg
      else transformed (exif_transform val) qimg
  | None => qimg
  end.
Proof.
  induction items as [|[tag val] rest IH]; [reflexivity|]. simpl.
  destruct (is_orientation_tag tag); [|exact IH].
  by destruct (QTransform.isIdentity _).
Qed.

(** C1. The transform that [_apply_exif_orientation] applies to the image
    of a file maps every point as the documented 8-way mapping says for
    the file's orientation tag (5 being the mirror of rotate-90-CW and 7
    the mirror of rotate-90-CCW); it is the identity exactly when the tag
    counts as 1, and then the image is returned as it is.  In particular
    the image comes back unchanged when reading the metadata raises, when
    there is no metadata and when there is no orientation field: nothing
    is raised to the caller. *)
Theorem apply_exif_orientation_documented (path : Path) (qimg : QImage) :
  (exists t : QTransform.t,
      (forall p, QTransform.map t p = documented_mapping (OrientationTag path) p)
      /\ (QTransform.isIdentity t = true <-> OrientationTag path = 1)
      /\ _apply_exif_orientation path qimg =
         (if QTransform.isIdentity t then qimg else transformed t qimg))
  /\ (forall p, documented_mapping 5 p
                = documented_mapping 2 (documented_mapping 6 p))
  /\ (forall p, documented_mapping 7 p
                = documented_mapping 2 (documented_mapping 8 p))
  /\ ((forall e, getexif path = Raise e ->
         _apply_exif_orientation path qimg = qimg)
      /\ (getexif path = Ok None ->
         _apply_exif_orientation path qimg = qimg)
      /\ (forall items, getexif path = Ok (Some items) ->
         orientation_field items = None ->
         _apply_exif_orientation path qimg = qimg)).
Proof.
  split; [|split; [|split]]; [|intros [x y]; simpl; f_equal; lia..|].
  - unfold _apply_exif_orientation, OrientationTag.
    destruct (getexif path) as [[items|]|e]; simpl.
    + rewrite orientation_loop_field.
      destruct (orientation_field items) as [[n|]|] eqn:Hf.
      * destruct ((1 <=? n) && (n <=? 8)) eqn:Hn.
        -- exists (exif_transform (ExifInt n)).
           split; [intros p; apply exif_transform_documented; lia|].
           split; [|done].
           rewrite exif_transform_identity. split.
           ++ intros H. specialize (H n eq_refl). lia.
           ++ intros -> m [= <-]. lia.
        -- exists QTransform.identity.
           split; [by intros [x y]; qt_points|]. split; [done|].
           assert (QTransform.isIdentity (exif_transform (ExifInt n)) = true)
             as ->; [|done].
           apply exif_transform_identity. intros m [= <-]. lia.
      * exists QTransform.identity.
        split; [by intros [x y]; qt_points|]. done.
      * exists QTransform.identity.
        split; [by intros [x y]; qt_points|]. done.
    + exists QTransform.identity.
      split; [by intros [x y]; qt_points|]. done.
    + exists QTransform.identity.
      split; [by intros [x y]; qt_points|]. done.
  - unfold _apply_exif_orientation. split; [|split].
    + by intros e ->.
    + by intros ->.
    + intros items -> Hf. simpl. by rewrite orientation_loop_field, Hf.
Qed.

(** ** Strings and paths *)

Lemma append_nil_r (s : string) : s +:+ "" = s.
Proof. induction s as [|a s IH]; [done|]. by rewrite <-IH at 2. Qed.

Lemma length_append (s1 s2 : string) :
  String.length (s1 +:+ s2) = (String.length s1 + String.length s2)%nat.
Proof.
  induction s1 as [|a s1 IH]; [done|].
  change (S (String.length (s1 +:+ s2))
          = S (String.length s1 + String.length s2)).
  by rewrite IH.
Qed.

Lemma append_inj_r (s1 s2 t : string) : s1 +:+ t = s2 +:+ t -> s1 = s2.
Proof.
  revert s2. induction s1 as [|a s1 IH]; intros [|b s2] H.
  - done.
  - apply (f_equal String.length) in H.
    rewrite !length_append in H. simpl in H. lia.
  - apply (f_equal String.length) in H.
    rewrite !length_append in H. simpl in H. lia.
  - change (String a (s1 +:+ t) = String b (s2 +:+ t)) in H.
    injection H as -> H. f_equal. by apply IH.
Qed.

Lemma string_compare_lt_trans (a b c : string) :
  String.compare a b = Lt -> String.compare b c = Lt ->
  String.compare a c = Lt.
Proof.
  intros Hab Hbc.
  assert (String.le a c) as Hac.
  { transitivity b; unfold String.le, String.leb; [by rewrite Hab|by rewrite Hbc]. }
  unfold String.le, String.leb in Hac.
  destruct (String.compare a c) eqn:Hc; [|done|done].
  apply String.compare_eq_iff in Hc as ->.
  rewrite String.compare_antisym, Hbc in Hab. discriminate.
Qed.

Lemma parts_leb_total (l1 l2 : list string) :
  parts_leb l1 l2 = true \/ parts_leb l2 l1 = true.
Proof.
  revert l2. induction l1 as [|a l1 IH]; intros [|b l2]; simpl; auto.
  rewrite (String.compare_antisym b a).
  destruct (String.compare a b); simpl; auto.
Qed.

Lemma parts_leb_antisym (l1 l2 : list string) :
  parts_leb l1 l2 = true -> parts_leb l2 l1 = true -> l1 = l2.
Proof.
  revert l2. induction l1 as [|a l1 IH]; intros [|b l2]; simpl; try done.
  rewrite (String.compare_antisym b a).
  destruct (String.compare a b) eqn:Hab; simpl; try done.
  apply String.compare_eq_iff in Hab as ->.
  intros H1 H2. f_equal. by apply IH.
Qed.

Lemma parts_leb_trans (l1 l2 l3 : list string) :
  parts_leb l1 l2 = true -> parts_leb l2 l3 = true -> parts_leb l1 l3 = true.
Proof.
  revert l2 l3.
  induction l1 as [|a l1 IH]; intros [|b l2] [|c l3]; simpl; try done.
  destruct (String.compare a b) eqn:Hab; try done.
  - apply String.compare_eq_iff in Hab as ->.
    destruct (String.compare b c); try done. apply IH.
  - intros _. destruct (String.compare b c) eqn:Hbc; try done.
    + apply String.compare_eq_iff in Hbc as <-. by rewrite Hab.
    + by rewrite (string_compare_lt_trans a b c).
Qed.

Global Instance path_le_total : Total path_le.
Proof. intros p q. apply parts_leb_total. Qed.

Global Instance path_le_trans : Transitive path_le.
Proof. intros p q r. apply parts_leb_trans. Qed.

Global Instance path_le_antisym : AntiSymm (=) path_le.
Proof.
  intros [r1 l1] [r2 l2] H1 H2.
  pose proof (parts_leb_antisym _ _ H1 H2) as [= -> ->]. done.
Qed.

Lemma sorted_perm (l : list Path) : sorted l ≡ₚ l.
Proof. apply merge_sort_Permutation. Qed.

Lemma sorted_strongly (l : list Path) : StronglySorted path_le (sorted l).
Proof. apply StronglySorted_merge_sort; apply _. Qed.

Lemma sorted_elem_of (l : list Path) (p : Path) : p ∈ sorted l <-> p ∈ l.
Proof. by rewrite sorted_perm. Qed.

(** The result of [sorted] does not depend on the order of its input. *)
Lemma sorted_order_independent (l1 l2 : list Path) :
  l1 ≡ₚ l2 -> sorted l1 = sorted l2.
Proof.
  intros Hp. apply (StronglySorted_unique path_le);
    [apply sorted_strongly..|].
  by rewrite !sorted_perm.
Qed.


Lemma split_slash_nonempty (s : string) : split_slash s <> [].
Proof.
  induction s as [|a s IH]; [done|]. simpl.
  destruct (Ascii.eqb a slash); [done|]. by destruct (split_slash s).
Qed.

Lemma split_slash_app (c s : string) :
  slash_free c = true ->
  split_slash (c +:+ s) =
  match split_slash s with
  | d :: ds => (c +:+ d) :: ds
  | [] => [c]
  end.
Proof.
  induction c as [|a c IH]; intros Hc.
  - change ("" +:+ s) with s.
    pose proof (split_slash_nonempty s). by destruct (split_slash s).
  - simpl in Hc. apply andb_true_iff in Hc as [Ha Hc].
    change (String a c +:+ s) with (String a (c +:+ s)). simpl.
    apply negb_true_iff in Ha. rewrite Ha, (IH Hc).
    by destruct (split_slash s).
Qed.

Lemma split_join (l : list string) :
  forallb slash_free l = true -> l <> [] -> split_slash (join_slash l) = l.
Proof.
  induction l as [|c l IH]; [done|]. intros Hl _.
  simpl in Hl. apply andb_true_iff in Hl as [Hc Hl].
  destruct l as [|c' l].
  - simpl. rewrite <-(append_nil_r c) at 1.
    rewrite split_slash_app by done. simpl. by rewrite append_nil_r.
  - change (join_slash (c :: c' :: l))
      with (c +:+ String slash (join_slash (c' :: l))).
    rewrite split_slash_app by done.
    change (split_slash (String slash (join_slash (c' :: l))))
      with ("" :: split_slash (join_slash (c' :: l))).
    rewrite IH by done. by rewrite append_nil_r.
Qed.

Lemma leading_slashes_join (l : list string) :
  forallb is_name l = true -> leading_slashes (join_slash l) = O.
Proof.
  destruct l as [|c l]; [done|]. simpl. intros H.
  apply andb_true_iff in H as [Hc _].
  unfold is_name, is_component in Hc.
  destruct c as [|a c]; [done|].
  assert (Ascii.eqb a slash = false) as Ha.
  { simpl in Hc. destruct (Ascii.eqb a slash); [|done].
    by rewrite andb_false_r in Hc. }
  destruct l; simpl; by rewrite Ha.
Qed.

Lemma filter_names (l : list string) :
  forallb is_name l = true ->
  filter (fun c => is_component c = true) l = l.
Proof.
  induction l as [|c l IH]; [done|]. simpl. intros H.
  apply andb_true_iff in H as [Hc Hl].
  unfold is_name in Hc. apply andb_true_iff in Hc as [Hc _].
  rewrite filter_cons_True by done. by rewrite IH.
Qed.

Lemma names_slash_free (l : list string) :
  forallb is_name l = true -> forallb slash_free l = true.
Proof.
  induction l as [|c l IH]; [done|]. simpl. intros H.
  apply andb_true_iff in H as [Hc Hl]. unfold is_name in Hc.
  apply andb_true_iff in Hc as [_ Hc]. by rewrite Hc, IH.
Qed.

Lemma parts_of_join (l : list string) :
  forallb is_name l = true ->
  filter (fun c => is_component c = true) (split_slash (join_slash l)) = l.
Proof.
  intros H. destruct l as [|c l]; [done|].
  rewrite split_join by (by apply names_slash_free || done).
  by apply filter_names.
Qed.

(** [Path(str(p)) == p] *)
Lemma Path_of_str_path_str (p : Path) :
  wf_path p = true -> Path_of_str (path_str p) = p.
Proof.
  destruct p as [r l]. unfold wf_path. cbn [root parts]. intros H.
  apply andb_true_iff in H as [Hr Hl]. apply bool_decide_eq_true in Hr.
  apply list_elem_of_In in Hr. simpl in Hr.
  destruct Hr as [<-|[<-|[<-|[]]]]; unfold Path_of_str, path_str;
    cbn [root parts].
  - destruct l as [|c l]; [done|].
    change ("" +:+ join_slash (c :: l)) with (join_slash (c :: l)).
    by rewrite leading_slashes_join, parts_of_join.
  - change ("/" +:+ join_slash l) with (String slash (join_slash l)).
    cbn [leading_slashes split_slash].
    replace (Ascii.eqb slash slash) with true by done.
    rewrite leading_slashes_join by done.
    rewrite filter_cons_False by (by intros ?).
    by rewrite parts_of_join.
  - change ("//" +:+ join_slash l)
      with (String slash (String slash (join_slash l))).
    cbn [leading_slashes split_slash].
    replace (Ascii.eqb slash slash) with true by done.
    rewrite leading_slashes_join by done.
    rewrite !filter_cons_False by (by intros ?).
    by rewrite parts_of_join.
Qed.


(** ** Navigation and display *)

Lemma py_index_in_range {A} (l : list A) (i : Z) :
  0 <= i < Z.of_nat (length l) ->
  exists a, py_index l i = Ok a /\ l !! Z.to_nat i = Some a.
Proof.
  intros Hi. unfold py_index.
  destruct (Z.ltb_spec i 0); [lia|].
  destruct (Z.leb_spec 0 i); [|lia].
  destruct (Z.ltb_spec i (Z.of_nat (length l))); [|lia]. simpl.
  destruct (lookup_lt_is_Some_2 l (Z.to_nat i)) as [a Ha]; [lia|].
  exists a. by rewrite Ha.
Qed.

Lemma _update_fav_icon_ok (w : MainWindow) :
  0 <= index w < len w ->
  exists b, _update_fav_icon w = Ok (set_fav_btn b w).
Proof.
  intros Hi. unfold _update_fav_icon.
  destruct (no_selection w); [by eexists|].
  destruct (py_index_in_range (files w) (index w) Hi) as (p & -> & _).
  simpl. by eexists.
Qed.

(** [_show_current] always returns, and changes nothing but what is on
    screen. *)
Lemma _show_current_ok (w : MainWindow) :
  exists w', _show_current w = Ok w'
             /\ nav w' = nav w /\ favorites w' = favorites w.
Proof.
  unfold _show_current.
  destruct (Z.ltb_spec (index w) 0); simpl; [by exists w|].
  destruct (Z.leb_spec (len w) (index w)); simpl; [by exists w|].
  destruct (py_index_in_range (files w) (index w)) as (p & -> & _);
    [unfold len in *; lia|]. simpl.
  destruct (load_image p) as [pix|]; [|by eexists].
  edestruct (_update_fav_icon_ok
               (set_shown pix (p, index w + 1, len w)
                          (Position (index w + 1) (len w) p) w))
    as [b ->]; [simpl; unfold len in *; simpl; lia|].
  by eexists.
Qed.

Lemma current_nav (w w' : MainWindow) : nav w' = nav w -> current w' = current w.
Proof.
  intros [= Hf Hfl Hi]. unfold current, no_selection. by rewrite Hfl, Hi.
Qed.

Lemma current_in_range (w : MainWindow) (p : Path) :
  current w = Some p ->
  no_selection w = false /\ py_index (files w) (index w) = Ok p
  /\ 0 <= index w < len w.
Proof.
  unfold current. destruct (no_selection w) eqn:Hsel; [done|].
  destruct (py_index (files w) (index w)) as [q|] eqn:Hq; [|done].
  intros [= ->]. split; [done|]. split; [done|].
  unfold no_selection in Hsel. apply orb_false_iff in Hsel as [_ Hi].
  apply Z.ltb_ge in Hi. split; [done|].
  unfold py_index in Hq. rewrite (proj2 (Z.ltb_ge _ _) Hi) in Hq.
  unfold len. destruct (Z.ltb_spec (index w) (Z.of_nat (length (files w))));
    [done|]. by rewrite andb_false_r in Hq.
Qed.

(** C9. [load_image] returns [None] exactly when decoding fails (an
    exception of the HEIC decoder or a null image of the generic reader)
    and a pixmap otherwise, whatever reading the metadata does; and
    [_show_current] always returns with the navigation state (folder,
    file list, index) as it was, a failed load only leaving a message in
    the status bar. *)
Theorem decode_failure_is_a_result :
  (forall path, load_image path = None <-> decode_fails path)
  /\ (forall path, ~ decode_fails path -> exists pix, load_image path = Some pix)
  /\ (forall w, exists w', _show_current w = Ok w' /\ nav w' = nav w)
  /\ (forall w p, current w = Some p -> load_image p = None ->
        _show_current w = Ok (set_status (FailedToLoad (name p)) w)).
Proof.
  assert (forall path, load_image path = None <-> decode_fails path) as Hfail.
  { intros path. unfold load_image, decode_fails.
    destruct (bool_decide _).
    - destruct (heif_decode path) as [q|e]; simpl.
      + split; [done|]. by intros [e [=]].
      + split; [by exists e|done].
    - by destruct (reader_read path). }
  split; [exact Hfail|]. split; [|split].
  - intros path Hok. destruct (load_image path) as [pix|] eqn:Hl; [by exists pix|].
    by apply Hfail in Hl.
  - intros w. destruct (_show_current_ok w) as (w' & ? & ? & _). by exists w'.
  - intros w p Hcur Hload.
    destruct (current_in_range w p Hcur) as (_ & Hidx & Hi).
    unfold _show_current.
    destruct (Z.ltb_spec (index w) 0); [lia|].
    destruct (Z.leb_spec (len w) (index w)); [lia|].
    simpl. rewrite Hidx. simpl. by rewrite Hload.
Qed.

(** ** Navigation cursor *)

Lemma next_image_valid (w : MainWindow) :
  index_valid w ->
  exists w', next_image w = Ok w' /\ index_valid w'
             /\ files w' = files w
             /\ (files w = [] -> w' = w)
             /\ (files w <> [] -> index w' = (index w + 1) `mod` len w).
Proof.
  intros Hv. unfold next_image.
  destruct (decide (files w = [])) as [He|Hne].
  - rewrite bool_decide_eq_true_2 by done. by exists w.
  - rewrite bool_decide_eq_false_2 by done.
    destruct (_show_current_ok (set_index ((index w + 1) `mod` len w) w))
      as (w' & -> & Hnav & _).
    injection Hnav as Hf Hfl Hi. simpl in *. exists w'.
    assert (0 < len w).
    { unfold len. destruct (files w); [done|simpl; lia]. }
    unfold index_valid, len in *. rewrite Hfl, Hi.
    pose proof (Z.mod_pos_bound (index w + 1) (Z.of_nat (length (files w)))).
    repeat split; try done; lia.
Qed.

Lemma prev_image_valid (w : MainWindow) :
  index_valid w ->
  exists w', prev_image w = Ok w' /\ index_valid w'
             /\ files w' = files w
             /\ (files w = [] -> w' = w)
             /\ (files w <> [] -> index w' = (index w - 1) `mod` len w).
Proof.
  intros Hv. unfold prev_image.
  destruct (decide (files w = [])) as [He|Hne].
  - rewrite bool_decide_eq_true_2 by done. by exists w.
  - rewrite bool_decide_eq_false_2 by done.
    destruct (_show_current_ok (set_index ((index w - 1) `mod` len w) w))
      as (w' & -> & Hnav & _).
    injection Hnav as Hf Hfl Hi. simpl in *. exists w'.
    assert (0 < len w).
    { unfold len. destruct (files w); [done|simpl; lia]. }
    unfold index_valid, len in *. rewrite Hfl, Hi.
    pose proof (Z.mod_pos_bound (index w - 1) (Z.of_nat (length (files w)))).
    repeat split; try done; lia.
Qed.

(** What [choose_folder] does with the index: 0 for a folder with
    images, untouched for a folder without. *)
Lemma choose_folder_index (picked : string) (contents : list Node)
    (w : MainWindow) (env : World) :
  picked <> "" ->
  exists w' env', choose_folder picked contents w env = Ok (w', env')
    /\ folder w' = Some (Path_of_str picked)
    /\ files w' = list_images (rglob (Path_of_str picked) contents)
    /\ index w' = (if bool_decide (files w' = []) then index w else 0).
Proof.
  intros Hp. unfold choose_folder.
  rewrite bool_decide_eq_false_2 by done. cbn [files set_folder_files].
  destruct (decide (list_images (rglob (Path_of_str picked) contents) = []))
    as [He|Hne].
  - rewrite !bool_decide_eq_true_2 by done.
    eexists _, _. split; [done|]. simpl.
    by rewrite bool_decide_eq_true_2.
  - rewrite bool_decide_eq_false_2 by done.
    edestruct (_show_current_ok) as (w' & -> & Hnav & _).
    injection Hnav as Hf Hfl Hi. simpl in *.
    eexists _, _. split; [done|].
    rewrite Hf, Hfl, Hi. by rewrite bool_decide_eq_false_2.
Qed.

(** C10. Without a current selection (no file listed, or a negative
    index) [toggle_favorite] returns at once: the window, its favorites
    included, and the outside world, the favorites file and the record
    of writes included, are as before. *)
Theorem toggle_favorite_without_selection (w : MainWindow) (env : World) :
  files w = [] \/ index w = -1 ->
  toggle_favorite w env = Ok (w, env).
Proof.
  intros H. unfold toggle_favorite, no_selection.
  destruct H as [-> | ->]; [done|]. by rewrite orb_true_r.
Qed.

(** ** Enumeration *)

Lemma filter_split_length {A} (f : A -> bool) (l : list A) :
  (length (filter (fun a => f a = true) l)
   + length (filter (fun a => f a = false) l))%nat = length l.
Proof.
  induction l as [|a l IH]; [done|].
  destruct (f a) eqn:Hf.
  - rewrite filter_cons_True, filter_cons_False by (done || congruence).
    simpl. lia.
  - rewrite filter_cons_False, filter_cons_True by (done || congruence).
    simpl. lia.
Qed.

Lemma Node_nested_ind (P : Node -> Prop) :
  (forall nm, P (File nm)) ->
  (forall nm t, P (Link nm t)) ->
  (forall nm children, Forall P children -> P (Dir nm children)) ->
  forall n, P n.
Proof.
  intros Hfile Hlink Hdir. fix IH 1. intros [nm|nm children|nm t].
  - apply Hfile.
  - apply Hdir. induction children as [|c children IHc]; constructor.
    + apply IH.
    + apply IHc.
  - apply Hlink.
Qed.

Lemma under_mono (base : Path) (nodes nodes' : list Node) (p : Path) (b : bool) :
  under base nodes p b -> nodes ⊆ nodes' -> under base nodes' p b.
Proof.
  intros Hu Hsub. destruct Hu as [base nodes n Hn|base nodes nm ch p b Hd Hu].
  - apply under_here. by apply Hsub.
  - eapply under_deeper; [by apply Hsub|done].
Qed.

Lemma rglob_node_head (base : Path) (n : Node) :
  (joinpath base (node_name n), node_is_file n) ∈ rglob_node base n.
Proof. destruct n; simpl; apply list_elem_of_here. Qed.

Lemma elem_of_flat_map {A B} (f : A -> list B) (l : list A) (y : B) :
  y ∈ flat_map f l <-> exists x, x ∈ l /\ y ∈ f x.
Proof.
  rewrite list_elem_of_In, in_flat_map. split.
  - intros (x & Hx & Hy). exists x. by rewrite !list_elem_of_In.
  - intros (x & Hx & Hy). exists x. by rewrite <-!list_elem_of_In.
Qed.

Lemma rglob_node_under (base : Path) (n : Node) (p : Path) (b : bool) :
  (p, b) ∈ rglob_node base n -> under base [n] p b.
Proof.
  revert base. induction n as [nm|nm t|nm children IH] using Node_nested_ind;
    intros base.
  - intros [= -> ->]%list_elem_of_singleton.
    apply (under_here base [File nm] (File nm)), list_elem_of_here.
  - intros [= -> ->]%list_elem_of_singleton.
    apply (under_here base [Link nm t] (Link nm t)), list_elem_of_here.
  - simpl. intros [[= -> ->]|Hin]%elem_of_cons.
    + apply (under_here base [Dir nm children] (Dir nm children)),
        list_elem_of_here.
    + apply elem_of_flat_map in Hin as (c & Hc & Hp).
      eapply under_deeper; [apply list_elem_of_here|].
      apply (under_mono _ [c]).
      * by apply (proj1 (Forall_forall _ _) IH c Hc).
      * by intros c' ->%list_elem_of_singleton.
Qed.

(** What [rglob] yields is what is under the folder. *)
Lemma rglob_under (base : Path) (nodes : list Node) (p : Path) (b : bool) :
  (p, b) ∈ rglob base nodes <-> under base nodes p b.
Proof.
  unfold rglob. split.
  - intros (n & Hn & Hp)%elem_of_flat_map.
    apply (under_mono _ [n]); [by apply rglob_node_under|].
    by intros n' ->%list_elem_of_singleton.
  - induction 1 as [base nodes n Hn|base nodes nm ch p b Hd _ IH].
    + apply elem_of_flat_map. exists n. split; [done|apply rglob_node_head].
    + apply elem_of_flat_map. exists (Dir nm ch). split; [done|].
      simpl. by apply list_elem_of_further.
Qed.

(** C3, as the code has it.  For a folder and what it holds,
    [list_images] over what [rglob] yields returns exactly the paths under
    the folder, at any depth, that are files (directories and links to
    directories are not) with a supported extension, lowercased; the
    result is in ascending order of the paths compared component by
    component (not of the path strings); it has as many entries as there
    are qualifying ones, the others adding nothing; and it is the same
    list whatever the order in which the traversal yields the entries. *)
Theorem list_images_exact_sorted (folder : Path) (contents : list Node) :
  let entries := rglob folder contents in
  (forall p, p ∈ list_images entries <->
             under folder contents p true /\ lower (suffix p) ∈ IMAGE_EXTS)
  /\ StronglySorted path_le (list_images entries)
  /\ length (list_images entries)
     = length (filter (fun e => is_image e = true) entries)
  /\ (length (list_images entries)
      + length (filter (fun e => is_image e = false) entries))%nat
     = length entries
  /\ (forall entries', entries' ≡ₚ entries ->
                       list_images entries' = list_images entries).
Proof.
  intros entries. unfold list_images. split; [|split; [|split; [|split]]].
  - intros p. rewrite sorted_elem_of, list_elem_of_fmap, <-rglob_under.
    fold entries. split.
    + intros ([q b] & -> & Hq). apply list_elem_of_filter in Hq as [Hq Hin].
      unfold is_image in Hq. apply andb_true_iff in Hq as [Hext Hb].
      simpl in *. subst b. by apply bool_decide_eq_true in Hext.
    + intros [Hin Hext]. exists (p, true). split; [done|].
      apply list_elem_of_filter. split; [|done]. unfold is_image. simpl.
      by rewrite bool_decide_eq_true_2.
  - apply sorted_strongly.
  - by rewrite sorted_perm, length_fmap.
  - rewrite sorted_perm, length_fmap. apply filter_split_length.
  - intros entries' Hp. apply sorted_order_independent. by rewrite Hp.
Qed.

(** C3, as stated, fails: of the folders [trip] and [trip 2], [trip] is
    listed first, yet ["/f/trip 2/y.jpg"] is the smaller path string (a
    space sorts before the slash). *)
Lemma list_images_not_sorted_by_string :
  path_str <$>
    list_images (rglob (Path_of_str "/f")
                       [Dir "trip 2" [File "y.jpg"]; Dir "trip" [File "x.jpg"]])
  = ["/f/trip/x.jpg"; "/f/trip 2/y.jpg"]
  /\ ~ Sorted str_le
        (path_str <$>
           list_images (rglob (Path_of_str "/f")
                              [Dir "trip 2" [File "y.jpg"];
                               Dir "trip" [File "x.jpg"]])).
Proof.
  assert (path_str <$>
            list_images (rglob (Path_of_str "/f")
                               [Dir "trip 2" [File "y.jpg"];
                                Dir "trip" [File "x.jpg"]])
          = ["/f/trip/x.jpg"; "/f/trip 2/y.jpg"]) as -> by (by vm_compute).
  split; [done|].
  intros H. apply Sorted_inv in H as [_ H]. apply HdRel_inv in H.
  unfold str_le, String.le in H. vm_compute in H. done.
Qed.


(** ** Favorites *)

Lemma toggle_favorite_selected (w : MainWindow) (env : World) (p : Path) :
  current w = Some p ->
  exists w',
    toggle_favorite w env
    = Ok (w', _save_favorites (set_favorites (toggled p (favorites w)) w) env)
    /\ favorites w' = toggled p (favorites w)
    /\ nav w' = nav w.
Proof.
  intros Hcur. destruct (current_in_range w p Hcur) as (Hsel & Hidx & Hi).
  unfold toggle_favorite. rewrite Hsel, Hidx. simpl.
  replace (if bool_decide (p ∈ favorites w)
           then set_favorites (favorites w ∖ {[p]}) w
           else set_favorites (favorites w ∪ {[p]}) w)
    with (set_favorites (toggled p (favorites w)) w)
    by (unfold toggled; by destruct (bool_decide _)).
  set (w1 := set_favorites (toggled p (favorites w)) w).
  destruct (_update_fav_icon_ok w1) as [b ->]; [done|]. simpl.
  destruct (_show_current_ok (set_fav_btn b w1)) as (w' & -> & Hnav & Hfav).
  exists w'. by rewrite Hfav, Hnav.
Qed.

Lemma toggled_twice (p : Path) (s : gset Path) : toggled p (toggled p s) = s.
Proof.
  unfold toggled. destruct (decide (p ∈ s)) as [Hin|Hout].
  - rewrite (bool_decide_eq_true_2 (p ∈ s)) by done.
    rewrite bool_decide_eq_false_2
      by (rewrite elem_of_difference, elem_of_singleton; tauto).
    apply set_eq. intros q.
    rewrite elem_of_union, elem_of_difference, elem_of_singleton.
    destruct (decide (q = p)) as [-> | ]; tauto.
  - rewrite (bool_decide_eq_false_2 (p ∈ s)) by done.
    rewrite bool_decide_eq_true_2
      by (rewrite elem_of_union, elem_of_singleton; tauto).
    apply set_eq. intros q.
    rewrite elem_of_difference, elem_of_union, elem_of_singleton.
    split; [tauto|]. intros Hq. split; [tauto|]. by intros ->.
Qed.

Lemma mapM_Path_ctor_strs (strs : list string) :
  mapM Path_ctor (JStr <$> strs) = Ok (Path_of_str <$> strs).
Proof.
  induction strs as [|s strs IH]; [done|]. rewrite !fmap_cons.
  change (mapM Path_ctor (JStr s :: (JStr <$> strs)))
    with (bs ← mapM Path_ctor (JStr <$> strs); Ok (Path_of_str s :: bs)).
  by rewrite IH.
Qed.

Lemma mapM_Path_ctor_raises (l : list json) :
  forallb is_str l = false -> exists e, mapM Path_ctor l = Raise e.
Proof.
  induction l as [|v l IH]; [done|]. simpl. intros H.
  destruct v; try (by eexists). simpl in H.
  destruct (IH H) as [e ->]. by eexists.
Qed.

(** Loading a file [{"favorites": [strings]}] gives the paths that the
    strings denote. *)
Lemma load_favorites_payload (env : World) (strs : list string) :
  fav_file env = Some (favorites_payload strs) ->
  favorites (init env) = list_to_set (Path_of_str <$> strs).
Proof.
  intros H. unfold init, _load_favorites. rewrite H. simpl.
  by rewrite mapM_Path_ctor_strs.
Qed.

Lemma save_favorites_payload (w : MainWindow) (env : World) :
  fav_writable env = true ->
  fav_file (_save_favorites w env)
  = Some (favorites_payload
            ((fun p => path_str (resolve p)) <$> sorted (elements (favorites w)))).
Proof.
  intros H. unfold _save_favorites, favorites_payload, _fav_json_payload.
  rewrite H. simpl. by rewrite <-list_fmap_compose.
Qed.

(** C4, as the code has it.  With [p] under the cursor, [toggle_favorite]
    returns; if [p] was not a favorite, the favorites file can be written
    and [p] is a path that [resolve] leaves as it is, a fresh window
    started on the resulting file has [p] among its favorites; and a second
    [toggle_favorite] brings the favorites of the window back to what they
    were. *)
Theorem toggle_then_load (w : MainWindow) (env : World) (p : Path) :
  current w = Some p ->
  exists w1 env1,
    toggle_favorite w env = Ok (w1, env1)
    /\ (p ∉ favorites w -> fav_writable env = true ->
        resolve p = p -> wf_path p = true ->
        isFavorite (init env1) p = true)
    /\ exists w2 env2,
        toggle_favorite w1 env1 = Ok (w2, env2)
        /\ favorites w2 = favorites w.
Proof.
  intros Hcur.
  destruct (toggle_favorite_selected w env p Hcur) as (w1 & Ht & Hfav & Hnav).
  eexists w1, _. split; [exact Ht|]. split.
  - intros Hout Hw Hres Hwf. unfold isFavorite. apply bool_decide_eq_true.
    erewrite load_favorites_payload by (by apply save_favorites_payload).
    apply elem_of_list_to_set, list_elem_of_fmap.
    exists (path_str (resolve p)). split.
    + by rewrite Hres, Path_of_str_path_str.
    + apply list_elem_of_fmap. exists p. split; [done|].
      apply sorted_elem_of, elem_of_elements. simpl. unfold toggled.
      rewrite bool_decide_eq_false_2 by done.
      apply elem_of_union_r, elem_of_singleton. done.
  - assert (current w1 = Some p) as Hcur1 by (by rewrite (current_nav w w1)).
    edestruct (toggle_favorite_selected w1) as (w2 & Ht2 & Hfav2 & _);
      [exact Hcur1|].
    eexists w2, _. split; [exact Ht2|].
    by rewrite Hfav2, Hfav, toggled_twice.
Qed.


(** C6, as the code has it.  A fresh window has no favorites when the
    favorites file is missing, cannot be read, is not JSON, does not hold
    an object, has no ["favorites"] key, or has one whose value is
    [null], a boolean, a number, or a list with an item that is not a
    string; nothing is raised. *)
Theorem load_favorites_degrades (env : World) :
  degraded (fav_file env) = true -> favorites (init env) = ∅.
Proof.
  unfold init, _load_favorites, degraded.
  destruct (fav_file env) as [[| |j]|]; try done.
  destruct j as [| | | |l|d]; try done.
  simpl. destruct (dict_lookup "favorites" d) as [v|]; [|done].
  destruct v as [| | | |l|d']; try done. simpl.
  intros Hl. apply negb_true_iff in Hl.
  by destruct (mapM_Path_ctor_raises l Hl) as [e ->].
Qed.

(** ** Export *)

Lemma alt_name_inj (st sf : string) (i j : N) :
  alt_name st sf i = alt_name st sf j -> i = j.
Proof.
  unfold alt_name. intros H.
  apply (inj (String.app st)) in H. apply (inj (String.app "_")) in H.
  apply append_inj_r in H. by apply (inj pretty) in H.
Qed.

Lemma alt_name_nonempty (st sf : string) (i : N) : alt_name st sf i <> "".
Proof.
  unfold alt_name. intros H. apply (f_equal String.length) in H.
  rewrite !length_append in H. simpl in H. lia.
Qed.

Lemma candidate_inj (target dst : Path) (i j : N) :
  candidate target dst i = candidate target dst j -> i = j.
Proof.
  unfold candidate, joinpath.
  rewrite !bool_decide_eq_false_2 by apply alt_name_nonempty.
  intros [= H]. apply app_inj_tail in H as [_ H]. by apply alt_name_inj in H.
Qed.

(** Among [size ex + 1] candidates one is not in [ex]. *)
Lemma candidate_unused (ex : gset Path) (target dst : Path) (i : N) :
  exists k, (k < S (size ex))%nat /\ candidate target dst (i + N.of_nat k) ∉ ex.
Proof.
  set (cands := (fun k => candidate target dst (i + N.of_nat k))
                  <$> seq 0 (S (size ex))).
  destruct (decide (Forall (fun c => c ∈ ex) cands)) as [Hall|Hnot].
  - exfalso.
    assert (NoDup cands) as Hnd.
    { apply NoDup_fmap_2; [|apply NoDup_seq].
      intros k1 k2 Hk. apply candidate_inj in Hk. lia. }
    assert (list_to_set cands ⊆ ex) as Hsub.
    { intros c Hc. apply elem_of_list_to_set in Hc.
      by apply (proj1 (Forall_forall _ _) Hall). }
    apply subseteq_size in Hsub. rewrite size_list_to_set in Hsub by done.
    unfold cands in Hsub. rewrite length_fmap, length_seq in Hsub. lia.
  - apply not_Forall_Exists in Hnot; [|apply _].
    apply Exists_exists in Hnot as (c & Hc & Hout).
    apply list_elem_of_fmap in Hc as (k & -> & Hk).
    apply elem_of_seq in Hk. exists k. split; [lia|done].
Qed.

(** The probing loop stops at the first unused candidate, provided one
    comes within the bound. *)
Lemma probe_first_unused (fuel : nat) (ex : gset Path) (target dst : Path) (i : N) :
  (exists k, (k < fuel)%nat /\ candidate target dst (i + N.of_nat k) ∉ ex) ->
  exists k, (k < fuel)%nat
    /\ probe fuel ex target (stem dst) (suffix dst) i
       = Some (candidate target dst (i + N.of_nat k))
    /\ (candidate target dst (i + N.of_nat k) ∉ ex)
    /\ forall k', (k' < k)%nat -> candidate target dst (i + N.of_nat k') ∈ ex.
Proof.
  revert i. induction fuel as [|fuel IH]; intros i (k & Hk & Hout); [lia|].
  simpl. fold (candidate target dst i).
  destruct (decide (candidate target dst i ∉ ex)) as [Hi|Hi].
  - rewrite bool_decide_eq_true_2 by done. exists O.
    rewrite N.add_0_r. repeat split; [lia|done|lia].
  - rewrite bool_decide_eq_false_2 by done.
    destruct k as [|k]; [by rewrite N.add_0_r in Hout|].
    destruct (IH (i + 1)%N) as (k1 & Hk1 & Hp & Hout1 & Hbefore).
    { exists k. split; [lia|].
      by replace (i + 1 + N.of_nat k)%N with (i + N.of_nat (S k))%N by lia. }
    exists (S k1).
    replace (i + N.of_nat (S k1))%N with (i + 1 + N.of_nat k1)%N by lia.
    repeat split; [lia|done|done|].
    intros [|k'] Hk'.
    + rewrite N.add_0_r. by apply dec_stable.
    + replace (i + N.of_nat (S k'))%N with (i + 1 + N.of_nat k')%N by lia.
      apply Hbefore. lia.
Qed.

(** More probes than needed change nothing. *)
Lemma probe_more_fuel (fuel fuel' : nat) (ex : gset Path) (target : Path)
    (st sf : string) (i : N) (dst : Path) :
  probe fuel ex target st sf i = Some dst -> (fuel <= fuel')%nat ->
  probe fuel' ex target st sf i = Some dst.
Proof.
  revert fuel' i. induction fuel as [|fuel IH]; intros fuel' i Hp Hle; [done|].
  destruct fuel' as [|fuel']; [lia|]. simpl in *.
  destruct (bool_decide _); [done|]. apply IH; [done|lia].
Qed.

Lemma choose_dst_spec (ex : gset Path) (target src : Path) :
  let dst0 := joinpath target (name src) in
  exists dst,
    choose_dst ex target src = Some dst
    /\ (dst ∉ ex)
    /\ (dst0 ∉ ex -> dst = dst0)
    /\ (dst0 ∈ ex ->
        exists i, (1 <= i)%N /\ dst = candidate target dst0 i
                  /\ forall j, (1 <= j < i)%N -> candidate target dst0 j ∈ ex).
Proof.
  intros dst0. unfold choose_dst. fold dst0.
  destruct (decide (dst0 ∈ ex)) as [Hin|Hout].
  - rewrite bool_decide_eq_true_2 by done.
    destruct (probe_first_unused (S (size ex)) ex target dst0 1)
      as (k & Hk & Hp & Hout & Hbefore); [apply candidate_unused|].
    eexists. split; [exact Hp|]. split; [done|]. split; [done|].
    intros _. exists (1 + N.of_nat k)%N. split; [lia|]. split; [done|].
    intros j Hj.
    replace j with (1 + N.of_nat (N.to_nat (j - 1)))%N by lia.
    apply Hbefore. lia.
  - rewrite bool_decide_eq_false_2 by done.
    exists dst0. by repeat split.
Qed.

Lemma copied_dsts_app (evs1 evs2 : list Event) :
  copied_dsts (evs1 ++ evs2) = copied_dsts evs1 ++ copied_dsts evs2.
Proof.
  induction evs1 as [|e evs1 IH]; [done|].
  destruct e; simpl; by rewrite ?IH.
Qed.

(** The export loop always ends; it only adds files, each under a name
    that was unused when it was copied. *)
Lemma export_loop_spec (target : Path) (srcs : list Path) (copied : Z)
    (env : World) :
  exists copied' env' evs,
    export_loop target srcs copied env = Some (copied', env')
    /\ events env' = evs ++ events env
    /\ fav_file env' = fav_file env
    /\ existing env' = existing env ∪ list_to_set (copied_dsts evs)
    /\ NoDup (copied_dsts evs)
    /\ (forall d, d ∈ copied_dsts evs -> d ∉ existing env)
    /\ copied' = copied + Z.of_nat (length (copied_dsts evs))
    /\ (forall e, e ∈ evs -> exists src, event_src e = Some src /\ src ∈ srcs).
Proof.
  revert copied env. induction srcs as [|src rest IH]; intros copied env.
  { exists copied, env, []. simpl.
    split; [done|]. split; [done|]. split; [done|].
    split; [by rewrite union_empty_r_L|]. split; [constructor|].
    split; [by intros d ?%elem_of_nil|]. split; [lia|].
    by intros e ?%elem_of_nil. }
  simpl. destruct (decide (src ∉ existing env)) as [Hgone|Hthere].
  { rewrite bool_decide_eq_true_2 by done.
    destruct (IH copied env) as (c' & env' & evs & -> & ? & ? & ? & ? & ? & ? & Hsrc).
    exists c', env', evs. repeat split; try done.
    intros e He. destruct (Hsrc e He) as (s0 & ? & ?).
    exists s0. split; [done|]. by apply list_elem_of_further. }
  rewrite bool_decide_eq_false_2 by done.
  destruct (choose_dst_spec (existing env) target src) as (dst & -> & Hfresh & _).
  simpl. destruct (copy2_ok src dst).
  - destruct (IH (copied + 1) (add_copy src dst env))
      as (c' & env' & evs & -> & Hev & Hfav & Hex & Hnd & Hout & Hc & Hsrc).
    simpl in Hev, Hfav, Hex, Hout.
    exists c', env', (evs ++ [Copied src dst]).
    rewrite copied_dsts_app. simpl.
    split; [done|]. split; [by rewrite <-app_assoc|]. split; [done|].
    split; [rewrite Hex, list_to_set_app_L; set_solver|].
    split.
    { apply NoDup_app. split; [done|]. split; [|apply NoDup_singleton].
      intros d Hd ->%list_elem_of_singleton. apply (Hout dst Hd). set_solver. }
    split.
    { intros d [Hd| ->%list_elem_of_singleton]%elem_of_app; [|done].
      intros Hin. apply (Hout d Hd). set_solver. }
    split; [rewrite length_app; simpl; lia|].
    intros e [He| ->%list_elem_of_singleton]%elem_of_app.
    + destruct (Hsrc e He) as (s0 & ? & ?).
      exists s0. split; [done|]. by apply list_elem_of_further.
    + exists src. split; [done|]. apply list_elem_of_here.
  - destruct (IH copied (emit (CopyFailedPrint src dst) env))
      as (c' & env' & evs & -> & Hev & Hfav & Hex & Hnd & Hout & Hc & Hsrc).
    simpl in Hev, Hfav, Hex, Hout.
    exists c', env', (evs ++ [CopyFailedPrint src dst]).
    rewrite copied_dsts_app. simpl. rewrite app_nil_r.
    split; [done|]. split; [by rewrite <-app_assoc|].
    repeat split; try done.
    intros e [He| ->%list_elem_of_singleton]%elem_of_app.
    + destruct (Hsrc e He) as (s0 & ? & ?).
      exists s0. split; [done|]. by apply list_elem_of_further.
    + exists src. split; [done|]. apply list_elem_of_here.
Qed.

(** C7. The destination chosen for a favorite is never an existing path:
    it is [target / name] when that is unused, and otherwise the numbered
    name [stem_i suffix] with the least [i >= 1] that is unused, the
    probing always coming to an end.  With [photo.jpg] in the destination
    the name is [photo_1.jpg], with [photo.jpg] and [photo_1.jpg] it is
    [photo_2.jpg], and two favorites named [photo.jpg] exported in one run
    become [photo_1.jpg] and [photo_2.jpg].  The export loop only adds
    files: the destinations of its copies are distinct and none existed
    before. *)
Theorem export_never_overwrites :
  (forall (ex : gset Path) (target src : Path),
      exists dst,
        choose_dst ex target src = Some dst
        /\ (dst ∉ ex)
        /\ (joinpath target (name src) ∉ ex -> dst = joinpath target (name src))
        /\ (joinpath target (name src) ∈ ex ->
            exists i, (1 <= i)%N
              /\ dst = candidate target (joinpath target (name src)) i
              /\ forall j, (1 <= j < i)%N ->
                    candidate target (joinpath target (name src)) j ∈ ex))
  /\ choose_dst {[Path_of_str "/out/photo.jpg"]}
                (Path_of_str "/out") (Path_of_str "/in/photo.jpg")
     = Some (Path_of_str "/out/photo_1.jpg")
  /\ choose_dst {[Path_of_str "/out/photo.jpg"; Path_of_str "/out/photo_1.jpg"]}
                (Path_of_str "/out") (Path_of_str "/in/photo.jpg")
     = Some (Path_of_str "/out/photo_2.jpg")
  /\ (events <$>
        (snd <$>
           export_loop (libs := Demo.plain) (Path_of_str "/out")
             [Path_of_str "/a/photo.jpg"; Path_of_str "/b/photo.jpg"] 0
             (Demo.world_of [Path_of_str "/a/photo.jpg";
                             Path_of_str "/b/photo.jpg";
                             Path_of_str "/out/photo.jpg"])))
     = Some [Copied (Path_of_str "/b/photo.jpg") (Path_of_str "/out/photo_2.jpg");
             Copied (Path_of_str "/a/photo.jpg") (Path_of_str "/out/photo_1.jpg")]
  /\ (forall (target : Path) (srcs : list Path) (copied : Z) (env : World),
        exists copied' env' evs,
          export_loop target srcs copied env = Some (copied', env')
          /\ events env' = evs ++ events env
          /\ existing env' = existing env ∪ list_to_set (copied_dsts evs)
          /\ NoDup (copied_dsts evs)
          /\ (forall d, d ∈ copied_dsts evs -> d ∉ existing env)).
Proof.
  split; [intros ex target src; apply choose_dst_spec|].
  split; [by vm_compute|]. split; [by vm_compute|]. split; [by vm_compute|].
  intros target srcs copied env.
  destruct (export_loop_spec target srcs copied env)
    as (c' & env' & evs & ? & ? & ? & ? & ? & ? & _).
  by exists c', env', evs.
Qed.

Lemma parent_joinpath (f : Path) (c : string) :
  c <> "" -> parent (joinpath f c) = f.
Proof.
  intros Hc. unfold joinpath. rewrite bool_decide_eq_false_2 by done.
  unfold parent. simpl. rewrite removelast_last. by destruct f.
Qed.




End Properties.

(** * The claims on concrete runs *)

(** C2 fails on the code.  After a folder with two photos has been opened
    and the second photo is shown, opening a folder without images
    replaces the file list by the empty one and returns before the index
    is set: the index stays 1, where the invariant asks for -1. *)
Theorem empty_folder_keeps_stale_index :
  exists w,
    Demo.stale_index_session = Ok w
    /\ folder w = Some (Path_of_str "/empty")
    /\ files w = []
    /\ index w = 1
    /\ ~ index_valid w.
Proof.
  eexists. split; [by vm_compute|].
  split; [done|]. split; [done|]. split; [done|].
  unfold index_valid, len. simpl. lia.
Qed.

(** C3: the theorem on a folder with a directory and a link to a directory
    named like images, a hidden file named [.jpg] and a text file. *)
Lemma list_images_example :
  list_images
    (rglob (Path_of_str "/f")
       [Dir "b" [File "y.JPG"; File "notes.txt"];
        Dir "a" [File "x.jpg"; Dir "d.png" []; Link "l.png" ToDir;
                 Link "m.gif" ToFile];
        File ".jpg"])
  = [Path_of_str "/f/a/m.gif"; Path_of_str "/f/a/x.jpg"; Path_of_str "/f/b/y.JPG"].
Proof. by vm_compute. Qed.

(** C4, as stated, fails: toggling a path that is a favorite removes it,
    and a fresh window started on the file written does not have it. *)
Lemma toggle_of_a_favorite_then_load :
  exists w env,
    Demo.unfavorite_session = Ok (w, env)
    /\ current w = Some (Path_of_str "/f/a.jpg")
    /\ isFavorite (init (libs := Demo.plain) env) (Path_of_str "/f/a.jpg") = false.
Proof. eexists _, _. split; [by vm_compute|]. split; by vm_compute. Qed.

(** C4: the theorem at a window showing [/f/a.jpg]. *)
Lemma toggle_then_load_witness :
  exists w1 env1,
    toggle_favorite Demo.one_photo Demo.empty_world = Ok (w1, env1)
    /\ isFavorite (init (libs := Demo.plain) env1) (Path_of_str "/f/a.jpg") = true
    /\ exists w2 env2,
        toggle_favorite w1 env1 = Ok (w2, env2)
        /\ favorites w2 = favorites Demo.one_photo.
Proof.
  destruct (toggle_then_load Demo.one_photo Demo.empty_world
              (Path_of_str "/f/a.jpg") eq_refl)
    as (w1 & env1 & Ht & Hload & Htwice).
  exists w1, env1. split; [exact Ht|]. split; [|exact Htwice].
  apply Hload; [apply not_elem_of_empty|reflexivity..].
Defined.



(** C6, as stated, fails: a ["favorites"] value of the wrong type that is
    a string gives one favorite per character. *)
Lemma load_favorites_of_a_string :
  Path_of_str "a" ∈
    favorites
      (init (libs := Demo.plain)
         (Demo.world_with (JsonText (JDict [("favorites", JStr "ab")]))))
  /\ favorites
       (init (libs := Demo.plain)
          (Demo.world_with (JsonText (JDict [("favorites", JStr "ab")]))))
     <> ∅.
Proof.
  assert (Path_of_str "a" ∈
            favorites
              (init (libs := Demo.plain)
                 (Demo.world_with (JsonText (JDict [("favorites", JStr "ab")])))))
    as Hin.
  { apply (bool_decide_unpack _). by vm_compute. }
  split; [exact Hin|]. intros He. rewrite He in Hin.
  by apply not_elem_of_empty in Hin.
Qed.

(** C6: the theorem at a favorites file whose ["favorites"] is a number. *)
Lemma load_favorites_degrades_witness :
  favorites
    (init (libs := Demo.plain)
       (Demo.world_with (JsonText (JDict [("favorites", JNum 5)]))))
  = ∅.
Proof. apply load_favorites_degrades. reflexivity. Defined.

(** C10: the theorem at a window that has just been started. *)
Lemma toggle_favorite_without_selection_witness :
  toggle_favorite (init (libs := Demo.plain) Demo.empty_world) Demo.empty_world
  = Ok (init (libs := Demo.plain) Demo.empty_world, Demo.empty_world).
Proof. apply toggle_favorite_without_selection. left. reflexivity. Defined.

(** * More properties of the viewer *)

Section MoreProperties.

Context {libs : Libs}.

(** ** Navigation *)

Lemma _show_current_keeps (w w' : MainWindow) :
  _show_current w = Ok w' -> nav w' = nav w /\ favorites w' = favorites w.
Proof.
  intros Hs. destruct (_show_current_ok w) as (w0 & Hw0 & Hnav & Hfav).
  rewrite Hs in Hw0. by injection Hw0 as <-.
Qed.

Lemma len_pos (w : MainWindow) : files w <> [] -> 0 < len w.
Proof. unfold len. destruct (files w); [done|simpl; lia]. Qed.

Lemma next_image_step (w : MainWindow) :
  files w <> [] ->
  exists w', next_image w = Ok w'
    /\ nav w' = (folder w, files w, (index w + 1) `mod` len w)
    /\ favorites w' = favorites w.
Proof.
  intros Hne. unfold next_image. rewrite bool_decide_eq_false_2 by done.
  destruct (_show_current_ok (set_index ((index w + 1) `mod` len w) w))
    as (w' & -> & Hnav & Hfav).
  by exists w'.
Qed.

Lemma prev_image_step (w : MainWindow) :
  files w <> [] ->
  exists w', prev_image w = Ok w'
    /\ nav w' = (folder w, files w, (index w - 1) `mod` len w)
    /\ favorites w' = favorites w.
Proof.
  intros Hne. unfold prev_image. rewrite bool_decide_eq_false_2 by done.
  destruct (_show_current_ok (set_index ((index w - 1) `mod` len w) w))
    as (w' & -> & Hnav & Hfav).
  by exists w'.
Qed.

Lemma files_len (w w' : MainWindow) : files w' = files w -> len w' = len w.
Proof. intros Hf. unfold len. by rewrite Hf. Qed.

(** X1. In a list of [n] photos with the cursor on one of them,
    [next_image] moves the cursor one further and from the last photo to
    the first, [prev_image] one back and from the first photo to the
    last. *)
Theorem navigation_wraps_around (w : MainWindow) :
  files w <> [] ->
  0 <= index w < len w ->
  exists wn wp,
    next_image w = Ok wn
    /\ prev_image w = Ok wp
    /\ index wn = (if index w =? len w - 1 then 0 else index w + 1)
    /\ index wp = (if index w =? 0 then len w - 1 else index w - 1)
    /\ files wn = files w /\ files wp = files w.
Proof.
  intros Hne Hi.
  destruct (next_image_step w Hne) as (wn & Hn & [= _ Hfn Hin] & _).
  destruct (prev_image_step w Hne) as (wp & Hp & [= _ Hfp Hip] & _).
  exists wn, wp. split; [done|]. split; [done|].
  rewrite Hin, Hip. repeat split; try done.
  - destruct (Z.eqb_spec (index w) (len w - 1)) as [He|Hn'].
    + replace (index w + 1) with (len w) by lia. apply Z_mod_same_full.
    + apply Z.mod_small. lia.
  - destruct (Z.eqb_spec (index w) 0) as [He|Hn'].
    + rewrite He. symmetry. apply (Z.mod_unique _ _ (-1)); lia.
    + apply Z.mod_small. lia.
Qed.

(** X2. Where the file list is empty or the cursor is on a photo,
    [prev_image] after [next_image], and [next_image] after [prev_image],
    bring the folder, the file list and the index back to what they
    were. *)
Theorem next_and_prev_are_inverse (w : MainWindow) :
  selection_ok w ->
  (exists w1 w2, next_image w = Ok w1 /\ prev_image w1 = Ok w2 /\ nav w2 = nav w)
  /\ (exists w1 w2, prev_image w = Ok w1 /\ next_image w1 = Ok w2 /\ nav w2 = nav w).
Proof.
  intros [He|Hi].
  - unfold next_image, prev_image. rewrite !bool_decide_eq_true_2 by done.
    split; exists w, w; by rewrite ?bool_decide_eq_true_2.
  - assert (files w <> []) as Hne.
    { intros He. unfold len in Hi. rewrite He in Hi. simpl in Hi. lia. }
    pose proof (len_pos w Hne) as Hpos.
    split.
    + destruct (next_image_step w Hne) as (w1 & H1 & Hnav1 & _).
      injection Hnav1 as Hf1 Hfl1 Hi1.
      assert (files w1 <> []) as Hne1 by (by rewrite Hfl1).
      destruct (prev_image_step w1 Hne1) as (w2 & H2 & Hnav2 & _).
      exists w1, w2. split; [done|]. split; [done|].
      rewrite Hnav2, (files_len w w1), Hf1, Hfl1, Hi1 by done.
      unfold nav. f_equal.
      rewrite Zminus_mod_idemp_l.
      replace (index w + 1 - 1) with (index w) by lia.
      apply Z.mod_small. lia.
    + destruct (prev_image_step w Hne) as (w1 & H1 & Hnav1 & _).
      injection Hnav1 as Hf1 Hfl1 Hi1.
      assert (files w1 <> []) as Hne1 by (by rewrite Hfl1).
      destruct (next_image_step w1 Hne1) as (w2 & H2 & Hnav2 & _).
      exists w1, w2. split; [done|]. split; [done|].
      rewrite Hnav2, (files_len w w1), Hf1, Hfl1, Hi1 by done.
      unfold nav. f_equal.
      rewrite Zplus_mod_idemp_l.
      replace (index w - 1 + 1) with (index w) by lia.
      apply Z.mod_small. lia.
Qed.

Lemma press_next_index (k : nat) (w : MainWindow) :
  files w <> [] ->
  0 <= index w < len w ->
  exists w', press_next k w = Ok w'
    /\ nav w' = (folder w, files w, (index w + Z.of_nat k) `mod` len w).
Proof.
  revert w. induction k as [|k IH]; intros w Hne Hi.
  - exists w. split; [done|]. unfold nav. f_equal.
    rewrite Z.add_0_r. symmetry. apply Z.mod_small. lia.
  - destruct (next_image_step w Hne) as (w1 & H1 & Hnav1 & _).
    pose proof (len_pos w Hne) as Hpos.
    injection Hnav1 as Hf1 Hfl1 Hi1.
    pose proof (files_len w w1 Hfl1) as Hlen.
    destruct (IH w1) as (w' & Hk & Hnav').
    { by rewrite Hfl1. }
    { rewrite Hi1, Hlen. apply Z.mod_pos_bound. lia. }
    exists w'. simpl. rewrite H1. simpl. split; [done|].
    rewrite Hnav', Hf1, Hfl1, Hi1, Hlen. f_equal.
    rewrite Zplus_mod_idemp_l. f_equal. lia.
Qed.

Lemma press_prev_index (k : nat) (w : MainWindow) :
  files w <> [] ->
  0 <= index w < len w ->
  exists w', press_prev k w = Ok w'
    /\ nav w' = (folder w, files w, (index w - Z.of_nat k) `mod` len w).
Proof.
  revert w. induction k as [|k IH]; intros w Hne Hi.
  - exists w. split; [done|]. unfold nav. f_equal.
    rewrite Z.sub_0_r. symmetry. apply Z.mod_small. lia.
  - destruct (prev_image_step w Hne) as (w1 & H1 & Hnav1 & _).
    pose proof (len_pos w Hne) as Hpos.
    injection Hnav1 as Hf1 Hfl1 Hi1.
    pose proof (files_len w w1 Hfl1) as Hlen.
    destruct (IH w1) as (w' & Hk & Hnav').
    { by rewrite Hfl1. }
    { rewrite Hi1, Hlen. apply Z.mod_pos_bound. lia. }
    exists w'. simpl. rewrite H1. simpl. split; [done|].
    rewrite Hnav', Hf1, Hfl1, Hi1, Hlen. f_equal.
    rewrite Zminus_mod_idemp_l. f_equal. lia.
Qed.

(** X3. With the cursor on photo [i] of [n], [k] calls of [next_image]
    lead to photo [(i + k) mod n] and [k] calls of [prev_image] to photo
    [(i - k) mod n]; [n] calls of either come back to photo [i], the
    folder and the file list being the same throughout. *)
Theorem navigation_cycles (k : nat) (w : MainWindow) :
  files w <> [] ->
  0 <= index w < len w ->
  (exists w', press_next k w = Ok w'
     /\ nav w' = (folder w, files w, (index w + Z.of_nat k) `mod` len w))
  /\ (exists w', press_prev k w = Ok w'
     /\ nav w' = (folder w, files w, (index w - Z.of_nat k) `mod` len w))
  /\ (exists w', press_next (length (files w)) w = Ok w' /\ nav w' = nav w)
  /\ (exists w', press_prev (length (files w)) w = Ok w' /\ nav w' = nav w).
Proof.
  intros Hne Hi. pose proof (len_pos w Hne) as Hpos.
  split; [by apply press_next_index|]. split; [by apply press_prev_index|].
  split.
  - destruct (press_next_index (length (files w)) w Hne Hi) as (w' & Hk & Hnav).
    exists w'. split; [done|]. rewrite Hnav. unfold nav. f_equal.
    fold (len w). rewrite <-(Z.mul_1_l (len w)) at 1.
    rewrite Z_mod_plus_full. apply Z.mod_small. lia.
  - destruct (press_prev_index (length (files w)) w Hne Hi) as (w' & Hk & Hnav).
    exists w'. split; [done|]. rewrite Hnav. unfold nav. f_equal.
    fold (len w).
    replace (index w - len w) with (index w + (-1) * len w) by lia.
    rewrite Z_mod_plus_full. apply Z.mod_small. lia.
Qed.

(** ** The states that can come about *)

Lemma init_nav (env : World) : nav (init env) = (None, [], -1).
Proof. unfold init, _load_favorites. by destruct (fav_file env). Qed.


Lemma toggle_favorite_nav (w : MainWindow) (env : World) (w' : MainWindow)
    (env' : World) :
  toggle_favorite w env = Ok (w', env') -> nav w' = nav w.
Proof.
  intros Ht. destruct (no_selection w) eqn:Hsel.
  - unfold toggle_favorite in Ht. rewrite Hsel in Ht. by injection Ht as <- _.
  - destruct (py_index (files w) (index w)) as [p|e] eqn:Hp.
    + assert (current w = Some p) as Hcur.
      { unfold current. by rewrite Hsel, Hp. }
      destruct (toggle_favorite_selected w env p Hcur) as (w0 & Ht0 & _ & Hnav).
      rewrite Ht in Ht0. by injection Ht0 as -> _.
    + unfold toggle_favorite in Ht. rewrite Hsel, Hp in Ht. discriminate.
Qed.



Lemma next_image_folder_files (w w' : MainWindow) :
  next_image w = Ok w' -> folder w' = folder w /\ files w' = files w.
Proof.
  intros Hn. destruct (decide (files w = [])) as [He|Hne].
  - unfold next_image in Hn. rewrite bool_decide_eq_true_2 in Hn by done.
    by injection Hn as <-.
  - destruct (next_image_step w Hne) as (w0 & Hn0 & [= Hfo Hf _] & _).
    rewrite Hn in Hn0. by injection Hn0 as ->.
Qed.

Lemma prev_image_folder_files (w w' : MainWindow) :
  prev_image w = Ok w' -> folder w' = folder w /\ files w' = files w.
Proof.
  intros Hn. destruct (decide (files w = [])) as [He|Hne].
  - unfold prev_image in Hn. rewrite bool_decide_eq_true_2 in Hn by done.
    by injection Hn as <-.
  - destruct (prev_image_step w Hne) as (w0 & Hn0 & [= Hfo Hf _] & _).
    rewrite Hn in Hn0. by injection Hn0 as ->.
Qed.

Lemma keyPressEvent_cases (key : Key) (w : MainWindow) (env : World)
    (w' : MainWindow) (env' : World) :
  keyPressEvent key w env = Ok (w', env') ->
  (next_image w = Ok w' /\ env' = env)
  \/ (prev_image w = Ok w' /\ env' = env)
  \/ toggle_favorite w env = Ok (w', env')
  \/ (w' = w /\ env' = env).
Proof.
  unfold keyPressEvent. destruct key; simpl; intros Hk.
  1-3: left; destruct (next_image w); [by injection Hk as -> ->|done].
  1-3: right; left; destruct (prev_image w); [by injection Hk as -> ->|done].
  1-2: right; right; by left.
  right; right; right. by injection Hk as -> ->.
Qed.

(** A property that holds when a window is made and that each handler
    keeps, holds of every window that can come about. *)
Lemma reachable_invariant (P : MainWindow -> Prop) :
  (forall env, P (init env)) ->
  (forall w env picked contents w' env',
      P w -> choose_folder picked contents w env = Ok (w', env') -> P w') ->
  (forall w w', P w -> next_image w = Ok w' -> P w') ->
  (forall w w', P w -> prev_image w = Ok w' -> P w') ->
  (forall w env w' env', P w -> toggle_favorite w env = Ok (w', env') -> P w') ->
  forall w, reachable w -> P w.
Proof.
  intros Hinit Hchoose Hnext Hprev Htoggle w Hr.
  induction Hr as [env|w env picked contents w' env' _ IH Hc|w w' _ IH Hn
                   |w w' _ IH Hp|w env w' env' _ IH Ht|w env key w' env' _ IH Hk].
  - apply Hinit.
  - by eapply Hchoose.
  - by eapply Hnext.
  - by eapply Hprev.
  - by eapply Htoggle.
  - apply keyPressEvent_cases in Hk as [[Hn _]|[[Hp _]|[Ht|[-> _]]]].
    + by eapply Hnext.
    + by eapply Hprev.
    + by eapply Htoggle.
    + done.
Qed.






Lemma list_images_ext (entries : list Entry) (p : Path) :
  p ∈ list_images entries -> lower (suffix p) ∈ IMAGE_EXTS.
Proof.
  unfold list_images. rewrite sorted_elem_of, list_elem_of_fmap.
  intros ([q b] & -> & Hq). apply list_elem_of_filter in Hq as [Hq _].
  unfold is_image in Hq. apply andb_true_iff in Hq as [Hext _].
  by apply bool_decide_eq_true in Hext.
Qed.

(** X5. In every window that can come about, the file list is in
    ascending order of the paths, holds only paths with a supported
    extension, and is empty as long as no folder has been chosen. *)
Theorem reachable_file_list (w : MainWindow) :
  reachable w ->
  StronglySorted path_le (files w)
  /\ (forall p, p ∈ files w -> lower (suffix p) ∈ IMAGE_EXTS)
  /\ (folder w = None -> files w = []).
Proof.
  revert w. apply reachable_invariant.
  - intros env. pose proof (init_nav env) as [= Hfo Hf _]. rewrite Hf.
    split; [constructor|]. split; [by intros p ?%elem_of_nil|done].
  - intros w env picked contents w' env' IH Hc.
    destruct (decide (picked = "")) as [->|Hp].
    + unfold choose_folder in Hc. simpl in Hc. by injection Hc as <- _.
    + destruct (choose_folder_index picked contents w env Hp)
        as (w0 & env0 & Hc0 & Hfo & Hf & _).
      rewrite Hc in Hc0. injection Hc0 as <- <-. rewrite Hf, Hfo.
      split; [apply sorted_strongly|]. split; [|done].
      intros p. apply list_images_ext.
  - intros w w' IH Hn. apply next_image_folder_files in Hn as [-> ->]. done.
  - intros w w' IH Hn. apply prev_image_folder_files in Hn as [-> ->]. done.
  - intros w env w' env' IH Ht.
    apply toggle_favorite_nav in Ht as [= -> -> _]. done.
Qed.

(** X20. On a folder with images [choose_folder] puts the cursor on the
    first photo in the order of the paths: the index is 0, the photo under
    the cursor is the head of the file list and no listed path comes
    before it; no message box is shown. *)
Theorem choose_folder_shows_first (picked : string) (contents : list Node)
    (w : MainWindow) (env : World) (p : Path) (rest : list Path) :
  picked <> "" ->
  list_images (rglob (Path_of_str picked) contents) = p :: rest ->
  exists w',
    choose_folder picked contents w env = Ok (w', env)
    /\ files w' = p :: rest
    /\ index w' = 0
    /\ current w' = Some p
    /\ (forall q, q ∈ files w' -> path_le p q).
Proof.
  intros Hp Hl.
  destruct (choose_folder_index picked contents w env Hp)
    as (w' & env' & Hc & _ & Hf & Hi).
  rewrite Hl in Hf. rewrite Hf, bool_decide_eq_false_2 in Hi by done.
  assert (env' = env) as ->.
  { unfold choose_folder in Hc. rewrite bool_decide_eq_false_2 in Hc by done.
    cbn [files set_folder_files] in Hc. rewrite Hl in Hc.
    rewrite bool_decide_eq_false_2 in Hc by done.
    destruct (_show_current _); [by injection Hc as _ <-|done]. }
  exists w'. split; [done|]. split; [done|]. split; [done|]. split.
  - unfold current, no_selection. rewrite Hf, Hi. reflexivity.
  - rewrite Hf. intros q [->|Hq]%elem_of_cons.
    + by destruct (total path_le p p).
    + pose proof (sorted_strongly
                    (fst <$> filter (fun e => is_image e = true)
                               (rglob (Path_of_str picked) contents))) as Hs.
      fold (list_images (rglob (Path_of_str picked) contents)) in Hs.
      rewrite Hl in Hs. apply StronglySorted_inv in Hs as [_ Hall].
      by apply (proj1 (Forall_forall _ _) Hall).
Qed.

(** ** What is on screen *)

Lemma _show_current_shown (w : MainWindow) (p : Path) (pix : QPixmap) :
  current w = Some p -> load_image p = Some pix ->
  _show_current w
  = Ok (set_fav_btn (bool_decide (p ∈ favorites w))
          (set_shown pix (p, index w + 1, len w)
                     (Position (index w + 1) (len w) p) w)).
Proof.
  intros Hcur Hload.
  destruct (current_in_range w p Hcur) as (Hsel & Hidx & Hi).
  unfold _show_current.
  destruct (Z.ltb_spec (index w) 0); [lia|].
  destruct (Z.leb_spec (len w) (index w)); [lia|].
  simpl. rewrite Hidx. simpl. rewrite Hload.
  unfold _update_fav_icon.
  change (no_selection (set_shown _ _ _ w)) with (no_selection w).
  rewrite Hsel. cbn [files index set_shown]. rewrite Hidx. reflexivity.
Qed.

Lemma _show_current_failed (w : MainWindow) (p : Path) :
  current w = Some p -> load_image p = None ->
  _show_current w = Ok (set_status (FailedToLoad (name p)) w).
Proof.
  intros Hcur Hload.
  destruct (current_in_range w p Hcur) as (Hsel & Hidx & Hi).
  unfold _show_current.
  destruct (Z.ltb_spec (index w) 0); [lia|].
  destruct (Z.leb_spec (len w) (index w)); [lia|].
  simpl. rewrite Hidx. simpl. by rewrite Hload.
Qed.

Lemma _show_current_display (w w' : MainWindow) (p : Path) (pix : QPixmap) :
  _show_current w = Ok w' -> current w = Some p -> load_image p = Some pix ->
  pixmap w' = Some pix
  /\ title w' = Some (p, index w' + 1, len w')
  /\ status w' = Position (index w' + 1) (len w') p
  /\ fav_btn w' = isFavorite w' p.
Proof.
  intros Hs Hcur Hload. rewrite (_show_current_shown w p pix) in Hs by done.
  injection Hs as <-. done.
Qed.

(** X6. When [next_image] or [prev_image] has moved the cursor to a photo
    that loads, the window shows that photo: the view holds its pixmap,
    the title and the status bar give its path and its position
    [index + 1] of [len(files)], and the heart is filled exactly when the
    photo is a favorite. *)
Theorem navigation_shows_the_photo (w w' : MainWindow) (p : Path)
    (pix : QPixmap) :
  files w <> [] ->
  next_image w = Ok w' \/ prev_image w = Ok w' ->
  current w' = Some p ->
  load_image p = Some pix ->
  pixmap w' = Some pix
  /\ title w' = Some (p, index w' + 1, len w')
  /\ status w' = Position (index w' + 1) (len w') p
  /\ fav_btn w' = isFavorite w' p.
Proof.
  intros Hne Hstep Hcur Hload.
  unfold next_image, prev_image in Hstep.
  rewrite !bool_decide_eq_false_2 in Hstep by done.
  destruct Hstep as [Hs|Hs];
    (eapply _show_current_display; [exact Hs| |exact Hload]);
    rewrite <-Hcur; symmetry; apply current_nav;
    by apply _show_current_keeps in Hs as [? _].
Qed.

(** ** Favorites *)

Lemma toggled_elem_of (p q : Path) (s : gset Path) :
  q ∈ toggled p s <-> (q = p /\ p ∉ s) \/ (q <> p /\ q ∈ s).
Proof.
  unfold toggled. destruct (decide (p ∈ s)) as [Hin|Hout].
  - rewrite bool_decide_eq_true_2 by done.
    rewrite elem_of_difference, elem_of_singleton.
    destruct (decide (q = p)) as [->|]; tauto.
  - rewrite bool_decide_eq_false_2 by done.
    rewrite elem_of_union, elem_of_singleton.
    destruct (decide (q = p)) as [->|]; tauto.
Qed.

Lemma toggle_favorite_unfold (w : MainWindow) (env : World) (p : Path) :
  current w = Some p ->
  toggle_favorite w env
  = (w' ← _show_current
            (set_fav_btn (bool_decide (p ∈ toggled p (favorites w)))
                         (set_favorites (toggled p (favorites w)) w));
     Ok (w', _save_favorites (set_favorites (toggled p (favorites w)) w) env)).
Proof.
  intros Hcur. destruct (current_in_range w p Hcur) as (Hsel & Hidx & Hi).
  unfold toggle_favorite. rewrite Hsel, Hidx. simpl.
  replace (if bool_decide (p ∈ favorites w)
           then set_favorites (favorites w ∖ {[p]}) w
           else set_favorites (favorites w ∪ {[p]}) w)
    with (set_favorites (toggled p (favorites w)) w)
    by (unfold toggled; by destruct (bool_decide _)).
  unfold _update_fav_icon.
  change (no_selection (set_favorites _ w)) with (no_selection w).
  rewrite Hsel. cbn [files index set_favorites]. rewrite Hidx. reflexivity.
Qed.

(** X7. After [toggle_favorite] on the photo under the cursor the heart
    shows the new state of that photo, whether or not the photo can be
    loaded: it is filled exactly when the photo is now a favorite, that is
    when it was not one before. *)
Theorem toggle_updates_the_heart (w : MainWindow) (env : World) (p : Path)
    (w' : MainWindow) (env' : World) :
  current w = Some p ->
  toggle_favorite w env = Ok (w', env') ->
  fav_btn w' = isFavorite w' p
  /\ fav_btn w' = negb (isFavorite w p).
Proof.
  intros Hcur Ht. rewrite (toggle_favorite_unfold w env p Hcur) in Ht.
  set (s := toggled p (favorites w)) in *.
  set (w2 := set_fav_btn (bool_decide (p ∈ s)) (set_favorites s w)) in *.
  assert (current w2 = Some p) as Hcur2 by (by rewrite (current_nav w w2)).
  assert (bool_decide (p ∈ s) = negb (isFavorite w p)) as Hflip.
  { unfold isFavorite, s. destruct (decide (p ∈ favorites w)) as [Hin|Hout].
    - rewrite (bool_decide_eq_true_2 (p ∈ favorites w)) by done.
      apply bool_decide_eq_false. rewrite toggled_elem_of. tauto.
    - rewrite (bool_decide_eq_false_2 (p ∈ favorites w)) by done.
      apply bool_decide_eq_true. rewrite toggled_elem_of. tauto. }
  unfold isFavorite.
  destruct (load_image p) as [pix|] eqn:Hload.
  - rewrite (_show_current_shown w2 p pix) in Ht by done.
    injection Ht as <- _. simpl. by rewrite Hflip.
  - rewrite (_show_current_failed w2 p) in Ht by done.
    injection Ht as <- _. simpl. by rewrite Hflip.
Qed.


(** X9. What a fresh window loads from the file that [_save_favorites]
    has written is the set of the favorites' resolved paths, read back
    from their strings; it is the set of favorites itself when every
    favorite is a well-formed path that [resolve] leaves as it is. *)
Theorem save_then_load_favorites (w : MainWindow) (env : World) :
  fav_writable env = true ->
  (forall q', q' ∈ favorites (init (_save_favorites w env)) <->
              exists q, q ∈ favorites w
                        /\ q' = Path_of_str (path_str (resolve q)))
  /\ ((forall q, q ∈ favorites w -> resolve q = q /\ wf_path q = true) ->
      favorites (init (_save_favorites w env)) = favorites w).
Proof.
  intros Hw.
  assert (forall q', q' ∈ favorites (init (_save_favorites w env)) <->
            exists q, q ∈ favorites w
                      /\ q' = Path_of_str (path_str (resolve q))) as Hmem.
  { intros q'.
    erewrite load_favorites_payload by (by apply save_favorites_payload).
    rewrite elem_of_list_to_set, list_elem_of_fmap. split.
    - intros (str & -> & (q & -> & Hq)%list_elem_of_fmap).
      exists q. split; [|done]. by apply sorted_elem_of, elem_of_elements in Hq.
    - intros (q & Hq & ->). exists (path_str (resolve q)). split; [done|].
      apply list_elem_of_fmap. exists q. split; [done|].
      by apply sorted_elem_of, elem_of_elements. }
  split; [exact Hmem|]. intros Hgood. apply set_eq. intros q'.
  rewrite Hmem. split.
  - intros (q & Hq & ->). destruct (Hgood q Hq) as [-> Hwf].
    by rewrite Path_of_str_path_str.
  - intros Hq'. exists q'. split; [done|]. destruct (Hgood q' Hq') as [-> Hwf].
    by rewrite Path_of_str_path_str.
Qed.


(** X11. Choosing a folder and moving through it leave the favorites
    alone: [choose_folder], [next_image] and [prev_image] keep the set in
    memory, and [choose_folder] touches neither the favorites file nor any
    path on disk. *)
Theorem favorites_survive_navigation (w : MainWindow) (env : World) :
  (forall picked contents w' env',
      choose_folder picked contents w env = Ok (w', env') ->
      favorites w' = favorites w
      /\ fav_file env' = fav_file env
      /\ existing env' = existing env)
  /\ (forall w', next_image w = Ok w' -> favorites w' = favorites w)
  /\ (forall w', prev_image w = Ok w' -> favorites w' = favorites w).
Proof.
  split; [|split].
  - intros picked contents w' env'. unfold choose_folder.
    destruct (bool_decide (picked = "")); [by intros [= <- <-]|].
    destruct (bool_decide _); [by intros [= <- <-]|].
    destruct (_show_current _) as [w1|] eqn:Hs; [|done].
    intros [= <- <-]. by apply _show_current_keeps in Hs as [_ ->].
  - intros w'. unfold next_image. destruct (bool_decide _); [by intros [= <-]|].
    intros Hs. by apply _show_current_keeps in Hs as [_ ->].
  - intros w'. unfold prev_image. destruct (bool_decide _); [by intros [= <-]|].
    intros Hs. by apply _show_current_keeps in Hs as [_ ->].
Qed.

(** ** Export *)

(** What the export loop does, event by event: every event is a copy, or
    a failed copy, of a source that existed when its turn came, to the
    destination chosen among the paths existing then. *)
Lemma export_loop_events (target : Path) (srcs : list Path) (copied : Z)
    (env : World) :
  exists copied' env' evs,
    export_loop target srcs copied env = Some (copied', env')
    /\ events env' = evs ++ events env
    /\ fav_file env' = fav_file env
    /\ fav_writable env' = fav_writable env
    /\ existing env ⊆ existing env'
    /\ copied' = copied + Z.of_nat (length (copied_dsts evs))
    /\ (forall e, e ∈ evs ->
          exists src dst ex,
            src ∈ srcs /\ existing env ⊆ ex /\ ex ⊆ existing env'
            /\ src ∈ ex /\ choose_dst ex target src = Some dst
            /\ ((e = Copied src dst /\ copy2_ok src dst = true)
                \/ (e = CopyFailedPrint src dst /\ copy2_ok src dst = false)))
    /\ (forall src, src ∈ srcs -> src ∈ existing env ->
          exists dst,
            (Copied src dst ∈ evs /\ copy2_ok src dst = true)
            \/ (CopyFailedPrint src dst ∈ evs /\ copy2_ok src dst = false)).
Proof.
  revert copied env. induction srcs as [|src rest IH]; intros copied env.
  { exists copied, env, []. simpl.
    split; [done|]. split; [done|]. split; [done|]. split; [done|].
    split; [done|]. split; [lia|].
    split; [by intros e ?%elem_of_nil|by intros s ?%elem_of_nil]. }
  simpl. destruct (decide (src ∉ existing env)) as [Hgone|Hthere].
  { rewrite bool_decide_eq_true_2 by done.
    destruct (IH copied env)
      as (c' & env' & evs & -> & Hev & Hff & Hfw & Hsub & Hc & Hevs & Hall).
    exists c', env', evs. repeat (split; [done|]). split.
    - intros e He.
      destruct (Hevs e He) as (s0 & d0 & ex & Hs0 & H1 & H2 & H3 & H4 & H5).
      exists s0, d0, ex. split; [by apply list_elem_of_further|done].
    - intros s0 [->|Hs0]%elem_of_cons Hex; [done|]. by apply Hall. }
  apply dec_stable in Hthere. rewrite bool_decide_eq_false_2 by tauto.
  destruct (choose_dst_spec (existing env) target src) as (dst & Hdst & _).
  rewrite Hdst. simpl. destruct (copy2_ok src dst) eqn:Hcopy.
  - destruct (IH (copied + 1) (add_copy src dst env))
      as (c' & env' & evs & -> & Hev & Hff & Hfw & Hsub & Hc & Hevs & Hall).
    simpl in Hev, Hff, Hfw, Hsub.
    assert (existing env ⊆ existing env') as Hsub0.
    { intros q Hq. apply Hsub, elem_of_union. by left. }
    exists c', env', (evs ++ [Copied src dst]).
    rewrite copied_dsts_app, length_app. simpl.
    split; [done|]. split; [by rewrite <-app_assoc|].
    split; [done|]. split; [done|]. split; [done|]. split; [lia|]. split.
    + intros e [He| ->%list_elem_of_singleton]%elem_of_app.
      * destruct (Hevs e He) as (s0 & d0 & ex & Hs0 & H1 & H2 & H3 & H4 & H5).
        exists s0, d0, ex. split; [by apply list_elem_of_further|].
        split; [|done]. intros q Hq. apply H1. simpl.
        apply elem_of_union. by left.
      * exists src, dst, (existing env).
        split; [apply list_elem_of_here|]. split; [done|]. split; [done|].
        split; [done|]. split; [done|]. by left.
    + intros s0 [->|Hs0]%elem_of_cons Hex.
      * exists dst. left. split; [|done]. apply elem_of_app. right.
        apply list_elem_of_here.
      * destruct (Hall s0 Hs0) as [d0 Hd0].
        { simpl. apply elem_of_union. by left. }
        exists d0. rewrite !elem_of_app. tauto.
  - destruct (IH copied (emit (CopyFailedPrint src dst) env))
      as (c' & env' & evs & -> & Hev & Hff & Hfw & Hsub & Hc & Hevs & Hall).
    simpl in Hev, Hff, Hfw, Hsub.
    exists c', env', (evs ++ [CopyFailedPrint src dst]).
    rewrite copied_dsts_app, length_app. simpl.
    split; [done|]. split; [by rewrite <-app_assoc|].
    split; [done|]. split; [done|]. split; [done|]. split; [lia|]. split.
    + intros e [He| ->%list_elem_of_singleton]%elem_of_app.
      * destruct (Hevs e He) as (s0 & d0 & ex & Hs0 & H1 & H2 & H3 & H4 & H5).
        exists s0, d0, ex. split; [by apply list_elem_of_further|done].
      * exists src, dst, (existing env).
        split; [apply list_elem_of_here|]. split; [done|]. split; [done|].
        split; [done|]. split; [done|]. by right.
    + intros s0 [->|Hs0]%elem_of_cons Hex.
      * exists dst. right. split; [|done]. apply elem_of_app. right.
        apply list_elem_of_here.
      * destruct (Hall s0 Hs0 Hex) as [d0 Hd0].
        exists d0. rewrite !elem_of_app. tauto.
Qed.

Lemma filter_none {A} (f : A -> bool) (l : list A) :
  (forall a, a ∈ l -> f a = false) -> filter (fun a => f a = true) l = [].
Proof.
  induction l as [|a l IH]; [done|]. intros Hall.
  rewrite filter_cons_False.
  - apply IH. intros b Hb. by apply Hall, list_elem_of_further.
  - rewrite (Hall a) by apply list_elem_of_here. discriminate.
Qed.

(** X12. Without a folder, without a favorite in the folder, or when the
    dialog for the destination is cancelled, [export_favorites] copies
    nothing and reports no count: apart from the one information box of
    the first two cases the world is as before. *)
Theorem export_without_anything_to_do (favs : list Path) (picked : string)
    (w : MainWindow) (env : World) :
  folder w = None
  \/ (exists f, folder w = Some f /\ forall p, p ∈ favs -> in_folder f p = false)
  \/ picked = "" ->
  exists env',
    export_from favs picked w env = Some env'
    /\ (env' = env \/ env' = emit NoFolderBox env \/ env' = emit NoFavoritesBox env)
    /\ existing env' = existing env
    /\ fav_file env' = fav_file env.
Proof.
  intros Hcase. unfold export_from.
  destruct (folder w) as [f|] eqn:Hf; [|eexists; split; [done|]; simpl; tauto].
  destruct (decide (filter (fun p => in_folder f p = true) favs = []))
    as [He|Hne].
  { rewrite bool_decide_eq_true_2 by done.
    eexists. split; [done|]. simpl. tauto. }
  rewrite bool_decide_eq_false_2 by done.
  destruct Hcase as [[=]|[(f' & [= <-] & Hout)| ->]].
  - exfalso. by apply Hne, filter_none.
  - eexists. split; [done|]. tauto.
Qed.


(** X14. Whatever it copies, [export_favorites] leaves the favorites file
    and its writability as they are, and removes no path. *)
Theorem export_keeps_the_favorites_file (favs : list Path) (picked : string)
    (w : MainWindow) (env : World) :
  exists env',
    export_from favs picked w env = Some env'
    /\ fav_file env' = fav_file env
    /\ fav_writable env' = fav_writable env
    /\ existing env ⊆ existing env'.
Proof.
  unfold export_from. destruct (folder w) as [f|]; [|by eexists].
  destruct (bool_decide _); [by eexists|].
  destruct (bool_decide _); [by eexists|].
  destruct (export_loop_events (Path_of_str picked)
              (filter (fun p => in_folder f p = true) favs) 0 env)
    as (c' & env' & evs & -> & _ & ? & ? & ? & _).
  by eexists.
Qed.

Lemma name_joinpath (f : Path) (c : string) : c <> "" -> name (joinpath f c) = c.
Proof.
  intros Hc. unfold joinpath. rewrite bool_decide_eq_false_2 by done.
  unfold name. simpl. apply last_last.
Qed.

(** X15. Every copy of the export loop lands directly in the destination
    folder, under the name of its source or under that name with [_i]
    put before the extension, for some [i >= 1]; the sources are taken to
    have a name. *)
Theorem export_copies_into_the_target (target : Path) (srcs : list Path)
    (copied : Z) (env : World) :
  (forall src, src ∈ srcs -> name src <> "") ->
  exists copied' env' evs,
    export_loop target srcs copied env = Some (copied', env')
    /\ events env' = evs ++ events env
    /\ forall src dst, Copied src dst ∈ evs ->
         parent dst = target
         /\ (name dst = name src
             \/ exists i, (1 <= i)%N
                  /\ name dst = alt_name (stem src) (suffix src) i).
Proof.
  intros Hnames.
  destruct (export_loop_events target srcs copied env)
    as (c' & env' & evs & Hl & Hev & _ & _ & _ & _ & Hevs & _).
  exists c', env', evs. split; [done|]. split; [done|].
  intros src dst He.
  destruct (Hevs _ He) as (s0 & d0 & ex & Hs0 & _ & _ & _ & Hd & Hkind).
  destruct Hkind as [[[= <- <-] _]|[[=] _]].
  pose proof (Hnames src Hs0) as Hname.
  destruct (choose_dst_spec ex target src) as (d1 & Hd1 & _ & Hfree & Htaken).
  rewrite Hd in Hd1. injection Hd1 as <-.
  destruct (decide (joinpath target (name src) ∈ ex)) as [Hin|Hout].
  - destruct (Htaken Hin) as (i & Hi & -> & _). unfold candidate.
    rewrite parent_joinpath, name_joinpath by apply alt_name_nonempty.
    split; [done|]. right. exists i. split; [done|].
    unfold stem, suffix. by rewrite name_joinpath.
  - rewrite (Hfree Hout), parent_joinpath, name_joinpath by done.
    split; [done|]. by left.
Qed.

(** X16. A favorite that is missing on disk is passed over in silence: of
    a source that still does not exist when the export loop has ended,
    nothing was copied and no failure was reported. *)
Theorem export_skips_missing_sources (target : Path) (srcs : list Path)
    (copied : Z) (env : World) :
  exists copied' env' evs,
    export_loop target srcs copied env = Some (copied', env')
    /\ events env' = evs ++ events env
    /\ forall src, src ∉ existing env' ->
         forall e, e ∈ evs -> event_src e <> Some src.
Proof.
  destruct (export_loop_events target srcs copied env)
    as (c' & env' & evs & Hl & Hev & _ & _ & _ & _ & Hevs & _).
  exists c', env', evs. split; [done|]. split; [done|].
  intros src Hmissing e He Hsrc.
  destruct (Hevs e He) as (s0 & d0 & ex & _ & _ & Hsub & Hin & _ & Hkind).
  apply Hmissing, Hsub.
  destruct Hkind as [[-> _]|[-> _]]; simpl in Hsrc; by injection Hsrc as <-.
Qed.

End MoreProperties.

(** ** The image view *)

Section ViewProperties.

Context {libs : Libs}.
Variable qreal : Type.

(** The item of the scene holds the pixmap of the view, and a view in fit
    mode that has a pixmap was last fitted. *)
Definition view_fitted (v : ImageView qreal) : Prop :=
  pixmap_item v = _base_pixmap v
  /\ (_fit_mode v = true -> is_Some (_base_pixmap v) ->
      head (calls v) = Some FitInView).

Lemma view_step_fitted (v : ImageView qreal) (ev : ViewEvent qreal) :
  view_fitted v -> view_fitted (view_step v ev).
Proof.
  intros [Hitem Hfit]. unfold view_fitted in *.
  destruct ev as [[pix|]|dy| | |e];
    unfold view_step, set_pixmap, wheelEvent, resizeEvent,
      mouseDoubleClickEvent, event;
    try destruct (etype qreal e =? 198);
    try destruct (gesture qreal e) as [g|];
    try destruct (negb (Z.land (changeFlags qreal g) 1 =? 0));
    destruct (_base_pixmap v) as [base|] eqn:Hb;
    destruct (_fit_mode v) eqn:Hm;
    repeat (simpl; rewrite ?Hb, ?Hm);
    (split; [done|]); intros Hm' Hb';
    rewrite ?Hb, ?Hm in Hm', Hb'; simpl in Hm', Hb';
    try done; try congruence;
    try (by destruct Hb' as [? [=]]);
    try (by apply Hfit).
Qed.

Lemma view_run_fitted (evs : list (ViewEvent qreal)) (v : ImageView qreal) :
  view_fitted v -> view_fitted (view_run evs v).
Proof.
  revert v. induction evs as [|ev evs IH]; intros v Hv; [done|].
  simpl. apply IH. by apply view_step_fitted.
Qed.

(** X17. Whatever happens to a view (pixmaps set or cleared, wheel and
    pinch zooms, resizes, double clicks), as long as it is in fit mode and
    holds a pixmap the last thing it did to its transform was to fit the
    picture in the window, also after a resize; and the item of the scene
    is the pixmap it holds. *)
Theorem view_in_fit_mode_is_fitted (evs : list (ViewEvent qreal)) :
  pixmap_item (view_run evs (new_view : ImageView qreal))
  = _base_pixmap (view_run evs (new_view : ImageView qreal))
  /\ (_fit_mode (view_run evs (new_view : ImageView qreal)) = true ->
      is_Some (_base_pixmap (view_run evs (new_view : ImageView qreal))) ->
      head (calls (view_run evs (new_view : ImageView qreal))) = Some FitInView).
Proof.
  apply (view_run_fitted evs new_view). split; [done|].
  by intros _ [? [=]].
Qed.

(** X18. On a view that holds a pixmap a double click switches between
    fit mode and 100%: out of fit mode the transform is reset, into fit
    mode the picture is fitted again; a second double click brings the
    mode back. *)
Theorem double_click_toggles_fit_mode (v : ImageView qreal) :
  is_Some (_base_pixmap v) ->
  _fit_mode (mouseDoubleClickEvent v) = negb (_fit_mode v)
  /\ head (calls (mouseDoubleClickEvent v))
     = Some (if _fit_mode v then ResetTransform else FitInView)
  /\ _fit_mode (mouseDoubleClickEvent (mouseDoubleClickEvent v)) = _fit_mode v
  /\ _base_pixmap (mouseDoubleClickEvent (mouseDoubleClickEvent v))
     = _base_pixmap v.
Proof.
  intros [pix Hb]. unfold mouseDoubleClickEvent. rewrite Hb.
  destruct (_fit_mode v) eqn:Hm; simpl; rewrite Hb; simpl; by rewrite ?Hm.
Qed.

Lemma view_step_stays_zoomed (v : ImageView qreal) (ev : ViewEvent qreal) :
  _fit_mode v = false -> is_double_click ev = false ->
  exists added,
    calls (view_step v ev) = added ++ calls v
    /\ (FitInView ∉ added)
    /\ _fit_mode (view_step v ev) = false.
Proof.
  intros Hm Hev. destruct ev as [[pix|]|dy| | |e]; simpl; try done.
  - exists [ResetTransform]. unfold set_pixmap. simpl. rewrite Hm. simpl.
    split; [done|]. split; [|done]. by intros [=]%list_elem_of_singleton.
  - exists []. unfold set_pixmap. simpl. split; [done|].
    split; [by intros ?%elem_of_nil|done].
  - unfold wheelEvent. destruct (_base_pixmap v).
    + eexists [_]. split; [done|]. split; [|done].
      by intros [=]%list_elem_of_singleton.
    + exists []. split; [done|]. split; [by intros ?%elem_of_nil|done].
  - exists [SuperResize]. unfold resizeEvent. simpl. rewrite Hm. simpl.
    split; [done|]. split; [|done]. by intros [=]%list_elem_of_singleton.
  - unfold event. destruct (etype qreal e =? 198).
    2:{ exists []. split; [done|]. split; [by intros ?%elem_of_nil|done]. }
    destruct (gesture qreal e) as [g|].
    2:{ exists []. split; [done|]. split; [by intros ?%elem_of_nil|done]. }
    destruct (_base_pixmap v).
    2:{ exists []. split; [done|]. split; [by intros ?%elem_of_nil|done]. }
    simpl. destruct (negb _).
    + eexists [_]. split; [done|]. split; [|done].
      by intros [=]%list_elem_of_singleton.
    + exists []. split; [done|]. split; [by intros ?%elem_of_nil|done].
Qed.

(** X19. Once a view has left fit mode only a double click brings it
    back: through any events other than double clicks (new pixmaps,
    wheel and pinch zooms, resizes) it stays out of fit mode and never
    fits the picture in the window. *)
Theorem only_a_double_click_refits (evs : list (ViewEvent qreal)) (v : ImageView qreal) :
  _fit_mode v = false ->
  Forall (fun ev => is_double_click ev = false) evs ->
  exists added,
    calls (view_run evs v) = added ++ calls v
    /\ (FitInView ∉ added)
    /\ _fit_mode (view_run evs v) = false.
Proof.
  revert v. induction evs as [|ev evs IH]; intros v Hm Hall.
  - exists []. split; [done|]. split; [by intros ?%elem_of_nil|done].
  - apply Forall_cons in Hall as [Hev Hall].
    destruct (view_step_stays_zoomed v ev Hm Hev) as (a1 & Hc1 & Hn1 & Hm1).
    destruct (IH (view_step v ev) Hm1 Hall) as (a2 & Hc2 & Hn2 & Hm2).
    exists (a2 ++ a1). simpl. rewrite Hc2, Hc1, app_assoc.
    split; [done|]. split; [|done].
    intros [|]%elem_of_app; tauto.
Qed.

End ViewProperties.

(** * The further properties on concrete runs *)

(** X1 with the cursor on the second of two photos. *)
Lemma navigation_wraps_around_witness :
  exists wn wp,
    next_image Examples.two_photos = Ok wn
    /\ prev_image Examples.two_photos = Ok wp
    /\ index wn = 0
    /\ index wp = 0.
Proof.
  destruct (navigation_wraps_around Examples.two_photos)
    as (wn & wp & Hn & Hp & Hin & Hip & _).
  - discriminate.
  - unfold len. simpl. lia.
  - exists wn, wp. split; [exact Hn|]. split; [exact Hp|].
    split; [exact Hin|exact Hip].
Defined.

(** X2 with the cursor on the second of two photos. *)
Lemma next_and_prev_are_inverse_witness :
  exists w1 w2,
    next_image Examples.two_photos = Ok w1
    /\ prev_image w1 = Ok w2
    /\ nav w2 = nav Examples.two_photos.
Proof.
  apply (next_and_prev_are_inverse Examples.two_photos).
  right. unfold len. simpl. lia.
Defined.

(** X3: five calls of [next_image] from the second of two photos. *)
Lemma navigation_cycles_witness :
  exists w',
    press_next 5 Examples.two_photos = Ok w'
    /\ nav w' = (folder Examples.two_photos, files Examples.two_photos, 0).
Proof.
  destruct (navigation_cycles 5 Examples.two_photos) as [Hnext _].
  - discriminate.
  - unfold len. simpl. lia.
  - exact Hnext.
Defined.

Lemma opened_reachable : reachable Examples.opened.
Proof.
  apply (reach_choose_folder (init Demo.empty_world) Demo.empty_world "/pics"
           [File "b.jpg"; File "a.jpg"; File "notes.txt"]
           Examples.opened Demo.empty_world (reach_init _)).
  vm_compute. reflexivity.
Defined.


(** X5 at the window in which [/pics] has been opened. *)
Lemma reachable_file_list_witness :
  StronglySorted path_le (files Examples.opened)
  /\ (forall p, p ∈ files Examples.opened -> lower (suffix p) ∈ IMAGE_EXTS).
Proof.
  destruct (reachable_file_list Examples.opened opened_reachable)
    as (Hs & Hext & _).
  split; [exact Hs|exact Hext].
Defined.

(** X6: [next_image] from the second of two photos shows the first. *)
Lemma navigation_shows_the_photo_witness :
  exists w',
    next_image Examples.two_photos = Ok w'
    /\ pixmap w' = Some tt
    /\ title w' = Some (Path_of_str "/pics/a.jpg", index w' + 1, len w')
    /\ fav_btn w' = isFavorite w' (Path_of_str "/pics/a.jpg").
Proof.
  eexists. split; [vm_compute; reflexivity|].
  match goal with
  | |- pixmap ?w' = _ /\ _ =>
      destruct (navigation_shows_the_photo Examples.two_photos w'
                  (Path_of_str "/pics/a.jpg") tt) as (H1 & H2 & _ & H4);
        [discriminate|left; vm_compute; reflexivity|vm_compute; reflexivity
        |vm_compute; reflexivity|]
  end.
  split; [exact H1|]. split; [exact H2|exact H4].
Defined.

(** X7 at a window showing [/f/a.jpg], not a favorite yet. *)
Lemma toggle_updates_the_heart_witness :
  exists w' env',
    toggle_favorite Demo.one_photo Demo.empty_world = Ok (w', env')
    /\ fav_btn w' = isFavorite w' (Path_of_str "/f/a.jpg")
    /\ fav_btn w' = negb (isFavorite Demo.one_photo (Path_of_str "/f/a.jpg")).
Proof.
  destruct (toggle_favorite Demo.one_photo Demo.empty_world)
    as [[w' env']|e] eqn:Ht; [|vm_compute in Ht; discriminate].
  exists w', env'. split; [reflexivity|].
  apply (toggle_updates_the_heart Demo.one_photo Demo.empty_world
           (Path_of_str "/f/a.jpg") w' env'); [reflexivity|exact Ht].
Defined.


(** X9 at a window with the favorite [/f/a.jpg]. *)
Lemma save_then_load_favorites_witness :
  favorites (init (libs := Demo.plain)
               (_save_favorites Examples.one_favorite Demo.empty_world))
  = favorites Examples.one_favorite.
Proof.
  apply (save_then_load_favorites Examples.one_favorite Demo.empty_world);
    [reflexivity|].
  intros q Hq. unfold Examples.one_favorite in Hq. cbn [favorites] in Hq.
  apply elem_of_singleton in Hq as ->. split; reflexivity.
Defined.


(** X12 at a window in which no folder has been chosen. *)
Lemma export_without_anything_to_do_witness :
  exists env',
    export_from [Path_of_str "/f/a.jpg"] "/out"
      (init (libs := Demo.plain) Demo.empty_world) Demo.empty_world
    = Some env'
    /\ (env' = Demo.empty_world
        \/ env' = emit NoFolderBox Demo.empty_world
        \/ env' = emit NoFavoritesBox Demo.empty_world)
    /\ existing env' = existing Demo.empty_world
    /\ fav_file env' = fav_file Demo.empty_world.
Proof.
  apply (export_without_anything_to_do (libs := Demo.plain)).
  left. reflexivity.
Defined.

(** X15 at two favorites named [photo.jpg], the destination holding a
    [photo.jpg] already. *)
Lemma export_copies_into_the_target_witness :
  exists copied' env' evs,
    export_loop (libs := Demo.plain) (Path_of_str "/out")
      [Path_of_str "/a/photo.jpg"; Path_of_str "/b/photo.jpg"] 0
      (Demo.world_of [Path_of_str "/a/photo.jpg"; Path_of_str "/b/photo.jpg";
                      Path_of_str "/out/photo.jpg"])
    = Some (copied', env')
    /\ events env'
       = evs ++ events (Demo.world_of [Path_of_str "/a/photo.jpg";
                                       Path_of_str "/b/photo.jpg";
                                       Path_of_str "/out/photo.jpg"])
    /\ forall src dst, Copied src dst ∈ evs ->
         parent dst = Path_of_str "/out"
         /\ (name dst = name src
             \/ exists i, (1 <= i)%N
                  /\ name dst = alt_name (stem src) (suffix src) i).
Proof.
  apply (export_copies_into_the_target (libs := Demo.plain)).
  intros src Hsrc.
  apply elem_of_cons in Hsrc as [->|Hsrc]; [discriminate|].
  apply list_elem_of_singleton in Hsrc as ->. discriminate.
Defined.

(** X18 at a view that has just been given a pixmap. *)
Lemma double_click_toggles_fit_mode_witness :
  _fit_mode (mouseDoubleClickEvent
               (set_pixmap (libs := Demo.plain) (qreal := Z) (Some tt) new_view))
  = false
  /\ _fit_mode
       (mouseDoubleClickEvent
          (mouseDoubleClickEvent
             (set_pixmap (libs := Demo.plain) (qreal := Z) (Some tt) new_view)))
     = true.
Proof.
  destruct (double_click_toggles_fit_mode Z
              (set_pixmap (libs := Demo.plain) (Some tt) new_view))
    as (H1 & _ & H3 & _).
  - by exists tt.
  - split; [exact H1|exact H3].
Defined.

(** X19 at a view zoomed by the wheel, then resized, zoomed and given a
    new pixmap. *)
Lemma only_a_double_click_refits_witness :
  exists added,
    calls (view_run [Resize; Wheel (-120); SetPixmap (libs := Demo.plain) (Some tt)]
                    Examples.zoomed_view)
    = added ++ calls Examples.zoomed_view
    /\ (FitInView ∉ added)
    /\ _fit_mode (view_run [Resize; Wheel (-120); SetPixmap (libs := Demo.plain) (Some tt)]
                           Examples.zoomed_view)
       = false.
Proof.
  apply (only_a_double_click_refits Z
           [Resize; Wheel (-120); SetPixmap (libs := Demo.plain) (Some tt)] Examples.zoomed_view).
  - reflexivity.
  - repeat constructor.
Defined.

(** X20 at a fresh window opening [/pics]. *)
Lemma choose_folder_shows_first_witness :
  exists w',
    choose_folder (libs := Demo.plain) "/pics"
      [File "b.jpg"; File "a.jpg"; File "notes.txt"]
      (init Demo.empty_world) Demo.empty_world
    = Ok (w', Demo.empty_world)
    /\ files w' = [Path_of_str "/pics/a.jpg"; Path_of_str "/pics/b.jpg"]
    /\ index w' = 0
    /\ current w' = Some (Path_of_str "/pics/a.jpg")
    /\ (forall q, q ∈ files w' -> path_le (Path_of_str "/pics/a.jpg") q).
Proof.
  apply (choose_folder_shows_first (libs := Demo.plain) "/pics").
  - discriminate.
  - vm_compute. reflexivity.
Defined.
